(** * Discrete PID level controller: step and ramp responses

    A verification development for [Código_Controlador.py], the simulator of
    a digital PID controller regulating a first-order tank-level plant.

    Numbers.  The script computes with Python floats.  The properties checked
    here are the algebraic and control-flow ones, so a float is idealised as
    an exact rational ([Q], compared with [==]); only the zero-order-hold
    discretiser, whose closed form involves the exponential, is stated over
    the real numbers.  Python integers used as indices are [Z], with the
    negative-index convention of the language written out. *)

From Stdlib Require Import List ZArith QArith Qabs Qminmax Lia Bool.
From Stdlib Require Import Reals Psatz.
From Stdlib Require Import Qround.
Import ListNotations.

Open Scope Q_scope.

(** ** Python values and failures *)

Module Py.

(** The built-in exceptions the modelled statements can raise, followed
    by the four failures the design names for the core components. *)
Inductive exn : Type :=
| IndexError
| ValueError
| ZeroDivisionError
| InvalidSampleError
| IncompatibleSampleRateError
| TimeGridMismatchError
| EmptyTraceError.

(** A computation either returns or raises. *)
Inductive result (A : Type) : Type :=
| Ok (a : A)
| Raise (e : exn).

Arguments Ok {A} a.
Arguments Raise {A} e.

Definition bind {A B : Type} (m : result A) (k : A -> result B) : result B :=
  match m with
  | Ok a => k a
  | Raise e => Raise e
  end.

(** [len(l)] as a Python integer. *)
Definition len {A : Type} (l : list A) : Z := Z.of_nat (length l).

(** [l[i]]: a negative index counts from the end; outside
    [-len(l) .. len(l)-1] the lookup raises [IndexError]. *)
Definition getitem {A : Type} (l : list A) (i : Z) : result A :=
  let j := (if i <? 0 then i + len l else i)%Z in
  if (j <? 0)%Z then Raise IndexError
  else match nth_error l (Z.to_nat j) with
       | Some v => Ok v
       | None => Raise IndexError
       end.

(** [range(start, stop, -1)]: [start, start-1, ..., stop+1]. *)
Definition range_down (start stop : Z) : list Z :=
  map (fun k => (start - Z.of_nat k)%Z) (seq 0 (Z.to_nat (start - stop))).

(** [x / y] on numbers: true division, raising on a zero divisor. *)
Definition truediv (x y : Q) : result Q :=
  if Qeq_bool y 0 then Raise ZeroDivisionError else Ok (x / y).

(** [x > y]. *)
Definition gt (x y : Q) : bool := negb (Qle_bool x y).

(** The built-in [max(a, b)]: the first argument is kept unless the second
    is strictly greater. *)
Definition max2 (a b : Q) : Q := if gt b a then b else a.

(** Truthiness of an optional number, as tested by [if v:]: [None] and
    zero are false. *)
Definition truthy (v : option Q) : bool :=
  match v with
  | None => false
  | Some x => negb (Qeq_bool x 0)
  end.

End Py.

Import Py.

Declare Scope py_scope.
Delimit Scope py_scope with py.
Notation "x <- m ;; k" := (bind m (fun x => k))
  (at level 61, m at next level, right associativity) : py_scope.
Open Scope py_scope.

(** ** NumPy array primitives *)

Module Np.

(** [np.max(a)]: the largest element; a zero-size array has no maximum and
    the reduction raises [ValueError]. *)
Definition max (a : list Q) : result Q :=
  match a with
  | [] => Raise ValueError
  | x :: r => Ok (fold_left Qmax r x)
  end.

(** [np.abs(a)], element-wise. *)
Definition abs (a : list Q) : list Q := map Qabs a.

(** [np.ones_like(a)]. *)
Definition ones_like (a : list Q) : list Q := map (fun _ => 1) a.

(** Element-wise combination of two one-dimensional arrays, with the
    broadcasting rule: equal lengths, or one operand of length one;
    anything else raises [ValueError]. *)
Fixpoint zip_with (f : Q -> Q -> Q) (a b : list Q) : list Q :=
  match a, b with
  | x :: a', y :: b' => f x y :: zip_with f a' b'
  | _, _ => []
  end.

Definition broadcast (f : Q -> Q -> Q) (a b : list Q) : result (list Q) :=
  if Nat.eqb (length a) (length b) then Ok (zip_with f a b)
  else match a, b with
       | [x], _ => Ok (map (fun y => f x y) b)
       | _, [y] => Ok (map (fun x => f x y) a)
       | _, _ => Raise ValueError
       end.

(** [a - b]. *)
Definition sub (a b : list Q) : result (list Q) := broadcast Qminus a b.

(** [c * a] for a scalar [c]. *)
Definition scale (c : Q) (a : list Q) : list Q := map (fun x => c * x) a.

End Np.

(** ** LTI model *)

(** A transfer function: numerator and denominator coefficients, highest
    order first, and the sample period ([tf(num, den, dt)]). *)
Record TransferFunction : Type := tf {
  num : list Q;
  den : list Q;
  dt : Q
}.

(** ** Bloco 7: discrete PID controller *)

(** The three assignments of lines 79-81, in order; each [/] may raise. *)
Definition pid_coefficients (Kp Ki Kd T : Q) : result (Q * Q * Q) :=
  i0 <- truediv (Ki * T) 2 ;;
  d0 <- truediv Kd T ;;
  let b0 := Kp + i0 + d0 in
  i1 <- truediv (Ki * T) 2 ;;
  d1 <- truediv (2 * Kd) T ;;
  let b1 := - Kp + i1 - d1 in
  d2 <- truediv Kd T ;;
  let b2 := d2 in
  Ok (b0, b1, b2).

Module Control.

(** Modelled from the spec: the constructor [tf(num, den, dt)] of the
    [control] package, which is not part of the repository sources.  It
    builds an LTI model and enforces its invariant: a denominator that is
    identically zero or a negative sample period is rejected, with the
    [ValueError] of the language. *)
Definition tf (n d : list Q) (T : Q) : result TransferFunction :=
  if forallb (fun c => Qeq_bool c 0) d then Raise ValueError
  else if gt 0 T then Raise ValueError
  else Ok (tf n d T).

End Control.

(** [Cz = tf([b0, b1, b2], [1, -1, 0], T)] (line 86). *)
Definition Cz (Kp Ki Kd T : Q) : result TransferFunction :=
  b <- pid_coefficients Kp Ki Kd T ;;
  let '(b0, b1, b2) := b in
  Control.tf [b0; b1; b2] [1; -1; 0] T.

(** ** Polynomial algebra on coefficient lists (highest order first)

    The operations the closed-loop composer is worded with: product and
    sum of coefficient arrays, and the value of a polynomial at a point. *)

Module Poly.

(** Horner evaluation, the accumulator made explicit. *)
Definition horner (z : Q) (acc : Q) (p : list Q) : Q :=
  fold_left (fun r c => r * z + c) p acc.

Definition peval (p : list Q) (z : Q) : Q := horner z 0 p.

(** [z^n]. *)
Fixpoint qpow (z : Q) (n : nat) : Q :=
  match n with
  | O => 1
  | S n' => z * qpow z n'
  end.

(** Align to [n] coefficients with leading zeros. *)
Definition pad (n : nat) (p : list Q) : list Q :=
  repeat 0 (n - length p) ++ p.

(** [polyadd]: the shorter operand is padded with leading zeros. *)
Definition polyadd (p q : list Q) : list Q :=
  let n := Nat.max (length p) (length q) in
  Np.zip_with Qplus (pad n p) (pad n q).

(** [polymul]: the coefficient convolution, one leading term at a time:
    [(a z^n + p) q = a z^n q + p q]. *)
Fixpoint polymul (p q : list Q) : list Q :=
  match p with
  | [] => []
  | a :: p' =>
      polyadd (map (Qmult a) q ++ repeat 0 (length p')) (polymul p' q)
  end.

End Poly.

Import Poly.

(** ** Bloco 8: closed loop *)

(** Modelled from the spec: the product [Cz * Gz] of the [control] package,
    which is not part of the repository sources.  Numerators and denominators
    are multiplied as polynomials; operands must share the sample period. *)
Definition tf_mul (C G : TransferFunction) : result TransferFunction :=
  if Qeq_bool (dt C) (dt G)
  then Ok (tf (polymul (num C) (num G)) (polymul (den C) (den G)) (dt C))
  else Raise IncompatibleSampleRateError.

(** The constant gain [k] seen as a transfer function on the time base of
    its partner. *)
Definition tf_const (k : Q) (T : Q) : TransferFunction := tf [k] [1] T.

(** Modelled from the spec: [feedback(L, H)] of the [control] package with
    negative feedback, [L / (1 + L H)] on coefficients: numerator
    [num(L) den(H)], denominator [den(L) den(H) + num(L) num(H)]. *)
Definition feedback (L H : TransferFunction) : result TransferFunction :=
  if Qeq_bool (dt L) (dt H)
  then Ok (tf (polymul (num L) (den H))
              (polyadd (polymul (den L) (den H)) (polymul (num L) (num H)))
              (dt L))
  else Raise IncompatibleSampleRateError.

(** [sys_cl = feedback(Cz * Gz, 1)] (line 97). *)
Definition sys_cl (C G : TransferFunction) : result TransferFunction :=
  L <- tf_mul C G ;;
  feedback L (tf_const 1 (dt L)).

(** ** Blocos 9-10: time-domain simulation

    The parts of the simulator: the recursion itself, the test on the time
    grid, and the indexed form of the difference equation it is compared
    with. *)

Module Sim.

(** Inner product of a coefficient array with a history, most recent
    sample first; history that does not exist contributes zero. *)
Fixpoint dot (c h : list Q) : Q :=
  match c, h with
  | x :: c', v :: h' => x * v + dot c' h'
  | _, _ => 0
  end.

(** The recursion in time order.  [uhist] and [yhist] hold the inputs and
    outputs already consumed and produced, most recent first. *)
Fixpoint run (b a' : list Q) (a0 : Q) (uhist yhist : list Q) (u : list Q)
  : list Q :=
  match u with
  | [] => []
  | x :: rest =>
      let uh := x :: uhist in
      let y := (1 / a0) * (dot b uh - dot a' yhist) in
      y :: run b a' a0 uh (y :: yhist) rest
  end.

(** Zero initial state. *)
Definition difference_equation (b a : list Q) (u : list Q) : list Q :=
  run b (tl a) (hd 0 a) [] [] u.

(** The time grid is strictly increasing with spacing equal to the
    sample period. *)
Fixpoint grid_ok (T : Q) (t : list Q) : bool :=
  match t with
  | t0 :: ((t1 :: _) as r) =>
      Qeq_bool (t1 - t0) T && gt t1 t0 && grid_ok T r
  | _ => true
  end.

(** A sequence read at an integer position, zero before the origin and
    past the end. *)
Definition sample (l : list Q) (i : Z) : Q :=
  if (i <? 0)%Z then 0 else nth (Z.to_nat i) l 0.

Definition sumQ (l : list Q) : Q := fold_right Qplus 0 l.

(** Right-hand side of the difference equation at time [n], read off the
    whole input [u] and output [y]. *)
Definition rhs (b a : list Q) (u y : list Q) (n : nat) : Q :=
  (1 / hd 0 a) *
  (sumQ (map (fun k => nth k b 0 * sample u (Z.of_nat n - Z.of_nat k))
             (seq 0 (length b)))
   - sumQ (map (fun k => nth k a 0 * sample y (Z.of_nat n - Z.of_nat k))
               (seq 1 (length a - 1)))).

End Sim.

(** Modelled from the spec: [forced_response] of the [control] package, which
    is not part of the repository sources.  The contract of the design: the
    time grid must match the sample period of the model and the length of the
    input; the output is the difference-equation recursion from rest. *)
Definition simulate (sys : TransferFunction) (t u : list Q)
  : result (list Q) :=
  if Sim.grid_ok (dt sys) t && Nat.eqb (length t) (length u)
  then Ok (Sim.difference_equation (num sys) (den sys) u)
  else Raise TimeGridMismatchError.

(** [t_out, y = forced_response(sys, T=t, U=u)]. *)
Definition forced_response (sys : TransferFunction) (t u : list Q)
  : result (list Q * list Q) :=
  y <- simulate sys t u ;;
  Ok (t, y).

(** ** Bloco 12: performance metrics *)

(** What the script prints, before number formatting. *)
Inductive line : Type :=
| StepHeader
| FinalValue (v : Q)
| SteadyStateError (v : Q)
| MaxEffort (v : Q)
| SettlingTime (v : Q)
| Overshoot (v : Q)
| StepFailure (e : exn)
| RampHeader
| RampFinalError (v : Q)
| RampMaxEffort (v : Q)
| RampFailure (e : exn).

(** Statements that print and may raise: the lines printed so far are
    threaded through, and survive a raise. *)
Module IO.

Definition io (A : Type) : Type := list line -> list line * result A.

Definition ret {A : Type} (a : A) : io A := fun out => (out, Ok a).

Definition lift {A : Type} (m : result A) : io A := fun out => (out, m).

Definition print (l : line) : io unit := fun out => (out ++ [l], Ok tt).

Definition bind {A B : Type} (m : io A) (k : A -> io B) : io B :=
  fun out =>
    match m out with
    | (out', Ok a) => k a out'
    | (out', Raise e) => (out', Raise e)
    end.

(** [try: body / except Exception as e: handler(e)]. *)
Definition try_except {A : Type} (body : io A) (handler : exn -> io A)
  : io A :=
  fun out =>
    match body out with
    | (out', Ok a) => (out', Ok a)
    | (out', Raise e) => handler e out'
    end.

(** The lines a block prints when started on an empty console. *)
Definition printed {A : Type} (m : io A) : list line := fst (m []).

Definition outcome {A : Type} (m : io A) : result A := snd (m []).

End IO.

Notation "x <~ m ;; k" := (IO.bind m (fun x => k))
  (at level 61, m at next level, right associativity) : py_scope.
Notation "m ;;; k" := (IO.bind m (fun _ => k))
  (at level 61, right associativity) : py_scope.

(** The references of Blocos 9 and 10. *)
Definition ref_degrau (t : list Q) : list Q := Np.ones_like t.

Definition ref_rampa (t : list Q) : list Q := Np.scale 0.0001 t.

(** [erro_degrau = ref_degrau - y_degrau] and [erro_rampa = ref_rampa -
    y_rampa] (lines 183 and 197). *)
Definition erro_degrau (t y_degrau : list Q) : result (list Q) :=
  Np.sub (ref_degrau t) y_degrau.

Definition erro_rampa (t y_rampa : list Q) : result (list Q) :=
  Np.sub (ref_rampa t) y_rampa.

(** The 2% test of line 216. *)
Definition in_band (v : Q) : bool := Qle_bool (Qabs (v - 1)) 0.02.

(** The [for] loop of lines 215-218 over the indices still to visit: the
    first index whose sample passes the test sets the result and breaks. *)
Fixpoint settling_scan (t y : list Q) (idx : list Z) : result (option Q) :=
  match idx with
  | [] => Ok None
  | i :: rest =>
      yi <- getitem y i ;;
      if in_band yi
      then ti <- getitem t i ;; Ok (Some ti)
      else settling_scan t y rest
  end.

(** Lines 212-218. *)
Definition settling_time (t_degrau y_degrau : list Q) : result (option Q) :=
  if (len y_degrau >? 10)%Z
  then settling_scan t_degrau y_degrau
         (range_down (len y_degrau - 1) (Z.max 0 (len y_degrau - 100)))
  else Ok None.

(** Line 222. *)
Definition overshoot (y_degrau : list Q) : result Q :=
  if (len y_degrau >? 0)%Z
  then m <- Np.max y_degrau ;; Ok (max2 0 ((m - 1) * 100))
  else Ok 0.

(** The value printed as steady-state error of the step (line 226). *)
Definition erro_estacionario (y_degrau : list Q) : result Q :=
  l <- getitem y_degrau (-1) ;; Ok (Qabs (1 - l)).

(** The value printed as maximum effort (lines 227 and 242). *)
Definition esforco_maximo (u : list Q) : result Q := Np.max (Np.abs u).

(** Body of the first [try] (lines 212-230). *)
Definition step_body (t_degrau y_degrau u_degrau : list Q) : IO.io unit :=
  st <~ IO.lift (settling_time t_degrau y_degrau) ;;
  ov <~ IO.lift (overshoot y_degrau) ;;
  IO.print StepHeader ;;;
  fv <~ IO.lift (getitem y_degrau (-1)) ;;
  IO.print (FinalValue fv) ;;;
  ee <~ IO.lift (erro_estacionario y_degrau) ;;
  IO.print (SteadyStateError ee) ;;;
  em <~ IO.lift (esforco_maximo u_degrau) ;;
  IO.print (MaxEffort em) ;;;
  (if truthy st
   then match st with
        | Some v => IO.print (SettlingTime v)
        | None => IO.ret tt
        end
   else IO.ret tt) ;;;
  IO.print (Overshoot ov).

(** Lines 211-233. *)
Definition step_metrics (t_degrau y_degrau u_degrau : list Q) : IO.io unit :=
  IO.try_except (step_body t_degrau y_degrau u_degrau)
                (fun e => IO.print (StepFailure e)).

(** The value bound to [erro_final_rampa] (line 239). *)
Definition erro_final_rampa (erro : list Q) : result Q := getitem erro (-1).

(** Body of the second [try] (lines 239-242). *)
Definition ramp_body (erro u_rampa : list Q) : IO.io unit :=
  ef <~ IO.lift (erro_final_rampa erro) ;;
  IO.print RampHeader ;;;
  IO.print (RampFinalError ef) ;;;
  em <~ IO.lift (esforco_maximo u_rampa) ;;
  IO.print (RampMaxEffort em).

(** Lines 237-245. *)
Definition ramp_metrics (erro u_rampa : list Q) : IO.io unit :=
  IO.try_except (ramp_body erro u_rampa)
                (fun e => IO.print (RampFailure e)).

(** *** The settling time as the design words it

    The earliest index of the scanned window from which every sample up to
    the end of the trace passes the 2% test; absent when the window holds no
    such index.  Used only for comparison with [settling_time]. *)
Module Design.

(** All samples from index [i] on pass the test. *)
Definition stays_in_band (y : list Q) (i : nat) : bool :=
  forallb in_band (skipn i y).

(** The window: the last [100] samples, or the whole trace when shorter. *)
Definition window (y : list Q) : list nat :=
  seq (length y - 100) (Nat.min 100 (length y)).

Definition settling_index (y : list Q) : option nat :=
  find (stays_in_band y) (window y).

Definition settling_time_spec (t y : list Q) : option Q :=
  match settling_index y with
  | Some i => nth_error t i
  | None => None
  end.

End Design.

(** ** Bloco 6: zero-order-hold discretisation of the plant *)

Module Zoh.

Local Open Scope R_scope.

(** A single-state realisation [x' = A x + B u], [y = C x + D u]. *)
Record StateSpace : Type := ss {
  ssA : R;
  ssB : R;
  ssC : R;
  ssD : R
}.

(** Modelled from the spec: the state-space realisation inside
    [signal.cont2discrete], which is not part of the repository sources.
    For [Gp_cont = ([K], [tau, 1])], after dividing through by the leading
    denominator coefficient: [x' = -(1/tau) x + u], [y = (K/tau) x]. *)
Definition tf2ss (K tau : R) : StateSpace :=
  ss (- (1 / tau)) 1 (K / tau) 0.

(** Two-by-two real matrices, for the augmented system matrix. *)
Record M2 : Type := m2 {
  m11 : R; m12 : R;
  m21 : R; m22 : R
}.

Definition Mid : M2 := m2 1 0 0 1.

Definition Madd (X Y : M2) : M2 :=
  m2 (m11 X + m11 Y) (m12 X + m12 Y) (m21 X + m21 Y) (m22 X + m22 Y).

Definition Mmul (X Y : M2) : M2 :=
  m2 (m11 X * m11 Y + m12 X * m21 Y) (m11 X * m12 Y + m12 X * m22 Y)
     (m21 X * m11 Y + m22 X * m21 Y) (m21 X * m12 Y + m22 X * m22 Y).

Definition Mscale (c : R) (X : M2) : M2 :=
  m2 (c * m11 X) (c * m12 X) (c * m21 X) (c * m22 X).

Fixpoint Mpow (X : M2) (n : nat) : M2 :=
  match n with
  | O => Mid
  | S n' => Mmul X (Mpow X n')
  end.

(** Partial sum of the exponential series, [sum_{n <= N} X^n / n!]. *)
Fixpoint expm_partial (X : M2) (N : nat) : M2 :=
  match N with
  | O => Mid
  | S N' => Madd (expm_partial X N') (Mscale (/ INR (fact N)) (Mpow X N))
  end.

(** The augmented system matrix over one sample period,
    [[A T, B T], [0, 0]]. *)
Definition augmented (s : StateSpace) (T : R) : M2 :=
  m2 (ssA s * T) (ssB s * T) 0 0.

(** First row of the exponential of the augmented matrix, in closed form
    ([exponential_first_row] below shows the series converges to it). *)
Definition Phi (a T : R) : R := exp (a * T).

Definition Gamma (a b T : R) : R :=
  if Req_dec_T a 0 then b * T else (exp (a * T) - 1) / a * b.

(** Modelled from the spec: the zero-order-hold step of
    [signal.cont2discrete], which is not part of the repository sources.
    The discrete state matrices are read off the exponential of the
    augmented matrix; the output equation is unchanged. *)
Definition zoh (s : StateSpace) (T : R) : StateSpace :=
  ss (Phi (ssA s) T) (Gamma (ssA s) (ssB s) T) (ssC s) (ssD s).

(** Modelled from the spec: the state-space to transfer-function reduction
    for one state, [C B / (z - A) + D] over the common denominator. *)
Definition ss2tf (s : StateSpace) : list R * list R :=
  ([ssD s; ssC s * ssB s - ssD s * ssA s], [1; - ssA s]).

(** [signal.cont2discrete(Gp_cont, T, method='zoh')] for
    [Gp_cont = ([K], [tau, 1])]: numerator and denominator. *)
Definition cont2discrete (K tau T : R) : list R * list R :=
  ss2tf (zoh (tf2ss K tau) T).

(** Polynomial value, coefficients highest order first. *)
Definition peval (p : list R) (z : R) : R :=
  fold_left (fun r c => r * z + c) p 0.

(** [sum(p)]: the value at [z = 1]. *)
Definition coeff_sum (p : list R) : R := fold_left Rplus p 0.

(** Discrete DC gain, [sum(numerator) / sum(denominator)]. *)
Definition dc_gain (g : list R * list R) : R :=
  coeff_sum (fst g) / coeff_sum (snd g).

(** The continuous plant [Gp_cont = (num_cont, den_cont)] (lines 24-27)
    and its DC gain, the value at [s = 0]. *)
Definition Gp_cont (K tau : R) : list R * list R := ([K], [tau; 1]).

Definition dc_gain_cont (g : list R * list R) : R :=
  peval (fst g) 0 / peval (snd g) 0.

(** Modelled from the spec: the constructor [tf(num, den, dt)] of the
    [control] package on real coefficients, with the same invariant as
    [Control.tf]: a denominator identically zero or a negative sample
    period is rejected with [ValueError]. *)
Definition tf (n d : list R) (T : R) : result (list R * list R * R) :=
  if forallb (fun c => if Req_dec_T c 0 then true else false) d
  then Raise ValueError
  else if Rlt_dec T 0 then Raise ValueError
  else Ok (n, d, T).


(** Terms and partial sums of the exponential series. *)
Definition exp_term (x : R) (n : nat) : R := / INR (fact n) * x ^ n.

Definition exp_partial (x : R) (N : nat) : R := sum_f_R0 (exp_term x) N.

End Zoh.

(** ** The time vector and the metrics section *)

(** [np.arange(start, stop, step)]: the [ceil((stop - start) / step)]
    values [start + i * step], none when that count is not positive; the
    count is obtained by a division, which raises on a zero step. *)
Definition arange (start stop step : Q) : result (list Q) :=
  if Qeq_bool step 0 then Raise ZeroDivisionError
  else Ok (map (fun i => start + inject_Z (Z.of_nat i) * step)
               (seq 0 (Z.to_nat (Qceiling ((stop - start) / step))))).

(** Bloco 12 as a whole: the two guarded blocks, one after the other. *)
Definition metrics_report (t_degrau y_degrau u_degrau erro u_rampa : list Q)
  : IO.io unit :=
  step_metrics t_degrau y_degrau u_degrau ;;;
  ramp_metrics erro u_rampa.

(** * Properties *)

(** ** Python lookups *)

Lemma nth_error_last {A : Type} (l : list A) (d : A) :
  l <> [] -> nth_error l (length l - 1) = Some (last l d).
Proof.
  induction l as [| x l IH]; [congruence |].
  intros _. destruct l as [| y l']; [reflexivity |].
  replace (length (x :: y :: l') - 1)%nat with (S (length (y :: l') - 1))
    by (simpl; lia).
  change (last (x :: y :: l') d) with (last (y :: l') d).
  simpl nth_error. apply IH. discriminate.
Qed.

(** [l[-1]] of a non-empty list is its last element. *)
Lemma getitem_last {A : Type} (l : list A) (d : A) :
  l <> [] -> getitem l (-1) = Ok (last l d).
Proof.
  intros Hne. unfold getitem.
  change (-1 <? 0)%Z with true. cbv iota.
  assert (Hlen : (0 < length l)%nat) by (destruct l; [congruence | simpl; lia]).
  unfold len.
  destruct (-1 + Z.of_nat (length l) <? 0)%Z eqn:E; [apply Z.ltb_lt in E; lia |].
  replace (Z.to_nat (-1 + Z.of_nat (length l))) with (length l - 1)%nat by lia.
  rewrite (nth_error_last l d Hne). reflexivity.
Qed.

Lemma getitem_empty {A : Type} (i : Z) : getitem (@nil A) i = Raise IndexError.
Proof.
  unfold getitem, len. simpl.
  destruct (i <? 0)%Z eqn:E.
  - rewrite Z.add_0_r, E. reflexivity.
  - rewrite E. destruct (Z.to_nat i); reflexivity.
Qed.

(** ** Discrete PID synthesiser *)

Lemma truediv_nonzero (x y : Q) : ~ y == 0 -> truediv x y = Ok (x / y).
Proof.
  intros Hy. unfold truediv.
  destruct (Qeq_bool y 0) eqn:E; [| reflexivity].
  apply Qeq_bool_iff in E. contradiction.
Qed.


Lemma pid_coefficients_nonzero (Kp Ki Kd T : Q) :
  ~ T == 0 ->
  pid_coefficients Kp Ki Kd T =
  Ok (Kp + Ki * T / 2 + Kd / T, - Kp + Ki * T / 2 - 2 * Kd / T, Kd / T).
Proof.
  intros HT. unfold pid_coefficients.
  rewrite !(truediv_nonzero _ T HT).
  rewrite (truediv_nonzero (Ki * T) 2) by (intro H; discriminate H).
  reflexivity.
Qed.


Lemma gt_zero_false (T : Q) : 0 <= T -> gt 0 T = false.
Proof.
  intros H. unfold gt. apply Qle_bool_iff in H. rewrite H. reflexivity.
Qed.


(** For a positive sample period the controller is built. *)
Lemma Cz_positive (Kp Ki Kd T : Q) :
  0 < T ->
  Cz Kp Ki Kd T =
  Ok (tf [Kp + Ki * T / 2 + Kd / T; - Kp + Ki * T / 2 - 2 * Kd / T; Kd / T]
         [1; -1; 0] T).
Proof.
  intros HT. unfold Cz.
  rewrite pid_coefficients_nonzero
    by (intro H; rewrite H in HT; discriminate HT).
  cbn [bind]. unfold Control.tf.
  change (forallb (fun c : Q => Qeq_bool c 0) [1; -1; 0]) with false.
  cbv iota. rewrite gt_zero_false by (apply Qlt_le_weak; exact HT).
  reflexivity.
Qed.



(** C1. The assignments of lines 79-81 compute
    [b0 = Kp + Ki*T/2 + Kd/T], [b1 = -Kp + Ki*T/2 - 2*Kd/T], [b2 = Kd/T]
    for every sample period that can be divided by; for a positive sample
    period the synthesiser returns them over the fixed denominator
    [1, -1, 0]; for [T = 1], [Kp = 1], [Ki = 0], [Kd = 0] the coefficients
    are [1], [-1] and [0]. *)
Theorem pid_synthesis_formulas :
  (forall Kp Ki Kd T : Q,
      ~ T == 0 ->
      pid_coefficients Kp Ki Kd T =
      Ok (Kp + Ki * T / 2 + Kd / T,
          - Kp + Ki * T / 2 - 2 * Kd / T,
          Kd / T))
  /\ (forall Kp Ki Kd T : Q,
         0 < T ->
         Cz Kp Ki Kd T =
         Ok (tf [Kp + Ki * T / 2 + Kd / T;
                 - Kp + Ki * T / 2 - 2 * Kd / T;
                 Kd / T]
                [1; -1; 0] T))
  /\ (exists b0 b1 b2 : Q,
         Cz 1 0 0 1 = Ok (tf [b0; b1; b2] [1; -1; 0] 1)
         /\ b0 == 1 /\ b1 == -1 /\ b2 == 0).
Proof.
  split; [| split].
  - intros Kp Ki Kd T HT. apply pid_coefficients_nonzero. exact HT.
  - intros Kp Ki Kd T HT. apply Cz_positive. exact HT.
  - eexists _, _, _. split; [vm_compute; reflexivity |].
    repeat split; reflexivity.
Qed.

Lemma pid_synthesis_formulas_witness :
  0 < 126 /\
  Cz 0.01 0.000005 0.002 126 =
  Ok (tf [0.01 + 0.000005 * 126 / 2 + 0.002 / 126;
          - 0.01 + 0.000005 * 126 / 2 - 2 * 0.002 / 126;
          0.002 / 126]
         [1; -1; 0] 126).
Proof.
  split; [reflexivity |].
  apply (proj1 (proj2 pid_synthesis_formulas)). reflexivity.
Defined.


(** ** Metrics: settling time *)

Lemma length_gt_10 {A : Type} (l : list A) :
  (len l >? 10)%Z = true <-> (10 < length l)%nat.
Proof. unfold len. rewrite Z.gtb_ltb, Z.ltb_lt. lia. Qed.

(** C10. A step trace of at most 10 samples is never scanned: the settling
    time is absent whatever the samples are, and no settling-time line is
    printed. *)
Theorem settling_time_short_trace (t_degrau y_degrau u_degrau : list Q) :
  (length y_degrau <= 10)%nat ->
  settling_time t_degrau y_degrau = Ok None
  /\ forall v, ~ In (SettlingTime v)
                   (IO.printed (step_metrics t_degrau y_degrau u_degrau)).
Proof.
  intros Hlen.
  assert (Hst : settling_time t_degrau y_degrau = Ok None).
  { unfold settling_time.
    destruct (len y_degrau >? 10)%Z eqn:E; [| reflexivity].
    apply length_gt_10 in E. lia. }
  split; [exact Hst |].
  intros v. unfold IO.printed, step_metrics, IO.try_except, step_body,
    IO.bind, IO.lift, IO.print, IO.ret.
  rewrite Hst.
  destruct (overshoot y_degrau); simpl;
    [| intuition discriminate].
  destruct (getitem y_degrau (-1)); simpl; [| intuition discriminate].
  destruct (erro_estacionario y_degrau); simpl; [| intuition discriminate].
  destruct (esforco_maximo u_degrau); simpl; intuition discriminate.
Qed.

Lemma settling_time_short_trace_witness :
  (length [1; 1; 1] <= 10)%nat /\
  settling_time [0; 126; 252] [1; 1; 1] = Ok None.
Proof.
  split; [simpl; lia |].
  apply (settling_time_short_trace [0; 126; 252] [1; 1; 1] [0; 0; 0]).
  simpl; lia.
Defined.

(** The scan stops at the first index it visits whose sample is in band. *)
Lemma settling_scan_head (t y : list Q) (i : Z) (rest : list Z) (yi ti : Q) :
  getitem y i = Ok yi -> in_band yi = true -> getitem t i = Ok ti ->
  settling_scan t y (i :: rest) = Ok (Some ti).
Proof.
  intros Hy Hb Ht. simpl. rewrite Hy. simpl. rewrite Hb, Ht. reflexivity.
Qed.

Lemma range_down_head (start stop : Z) :
  (stop < start)%Z ->
  exists rest, range_down start stop = start :: rest.
Proof.
  intros H. unfold range_down.
  destruct (Z.to_nat (start - stop)) eqn:E; [lia |].
  simpl. rewrite Z.sub_0_r. eexists. reflexivity.
Qed.

(** X16. Whenever the last sample of a scanned trace is in band, the time
    reported is the last instant of the trace, whatever happened before. *)
Lemma settling_time_is_last_instant (t y : list Q) :
  (10 < length y)%nat -> length t = length y ->
  in_band (last y 0) = true ->
  settling_time t y = Ok (Some (last t 0)).
Proof.
  intros Hlen Ht Hb. unfold settling_time.
  apply length_gt_10 in Hlen as Hgt. rewrite Hgt.
  destruct (range_down_head (len y - 1) (Z.max 0 (len y - 100))) as [rest ->].
  { unfold len. lia. }
  assert (Hy : y <> []) by (destruct y; [simpl in Hlen; lia | discriminate]).
  assert (Hy' : t <> []) by (destruct t; [simpl in Ht; lia | discriminate]).
  assert (Hidx : forall (l : list Q), length l = length y ->
                 getitem l (len y - 1) = getitem l (-1)).
  { intros l Hl. unfold getitem. change (-1 <? 0)%Z with true. cbv iota.
    unfold len. rewrite Hl.
    destruct (Z.of_nat (length y) - 1 <? 0)%Z eqn:E;
      [apply Z.ltb_lt in E; lia |].
    replace (-1 + Z.of_nat (length y))%Z with (Z.of_nat (length y) - 1)%Z by lia.
    rewrite E. reflexivity. }
  eapply settling_scan_head.
  - rewrite (Hidx y eq_refl). apply (getitem_last y 0 Hy).
  - exact Hb.
  - rewrite (Hidx t Ht). apply (getitem_last t 0 Hy').
Qed.

(** C5, the code at two traces of eleven samples taken at instants
    0, 1, ..., 10.  First, an output equal to the reference throughout: it
    stays in the band from the first sample on, yet the time reported is the
    last instant, 10, where the earliest instant of the window from which
    the output stays in band is 0.  Second, the same output leaving the band
    at the last sample: instant 9 is reported although the output does not
    stay in band to the end of the trace. *)
Theorem settling_time_reports_latest :
  let t := [0; 1; 2; 3; 4; 5; 6; 7; 8; 9; 10] in
  let y := [1; 1; 1; 1; 1; 1; 1; 1; 1; 1; 1] in
  let y' := [1; 1; 1; 1; 1; 1; 1; 1; 1; 1; 2] in
  (Forall (fun v => in_band v = true) y
   /\ settling_time t y = Ok (Some 10)
   /\ Design.settling_time_spec t y = Some 0)
  /\ (in_band (last y' 0) = false
      /\ settling_time t y' = Ok (Some 9)
      /\ Design.settling_time_spec t y' = None).
Proof.
  cbv zeta. split.
  - split; [repeat constructor |].
    split; vm_compute; reflexivity.
  - repeat split; vm_compute; reflexivity.
Qed.

(** ** Metrics: steady-state and velocity error *)

Lemma zip_with_last (f : Q -> Q -> Q) (a b : list Q) (da db : Q) :
  length a = length b -> a <> [] ->
  last (Np.zip_with f a b) (f da db) = f (last a da) (last b db).
Proof.
  revert b. induction a as [| x a IH]; intros b Hlen Hne; [congruence |].
  destruct b as [| y b]; [discriminate |].
  destruct a as [| x' a'].
  - destruct b; [reflexivity | discriminate].
  - destruct b as [| y' b']; [discriminate |].
    change (Np.zip_with f (x :: x' :: a') (y :: y' :: b'))
      with (f x y :: f x' y' :: Np.zip_with f a' b').
    change (last (f x y :: f x' y' :: Np.zip_with f a' b') (f da db))
      with (last (Np.zip_with f (x' :: a') (y' :: b')) (f da db)).
    rewrite IH; [reflexivity | simpl in *; lia | discriminate].
Qed.

Lemma zip_with_nonempty (f : Q -> Q -> Q) (a b : list Q) :
  length a = length b -> a <> [] -> Np.zip_with f a b <> [].
Proof.
  destruct a, b; simpl; intros; congruence.
Qed.

Lemma sub_same_length (a b : list Q) :
  length a = length b -> Np.sub a b = Ok (Np.zip_with Qminus a b).
Proof.
  intros H. unfold Np.sub, Np.broadcast. rewrite H, Nat.eqb_refl. reflexivity.
Qed.

Lemma last_map {A B : Type} (g : A -> B) (l : list A) (d : A) :
  last (map g l) (g d) = g (last l d).
Proof.
  induction l as [| x l IH]; [reflexivity |].
  destruct l; [reflexivity |]. exact IH.
Qed.

(** C6 fails as stated for the step: with a final output of 2 the sequence
    [reference - output] ends in -1, and the error reported is 1. *)
Lemma step_error_sign_dropped :
  exists e l r,
    erro_estacionario [2] = Ok e
    /\ erro_degrau [0] [2] = Ok l
    /\ getitem l (-1) = Ok r
    /\ ~ e == r.
Proof.
  exists (Qabs (1 - 2)), [1 - 2], (1 - 2).
  repeat split. intro H. vm_compute in H. discriminate H.
Qed.

(** C6, amended. On a non-empty trace the error reported for the step is the
    absolute value of the last element of [reference - output], and the
    error reported for the ramp is that last element itself, signed. *)
Theorem final_errors (t y_degrau y_rampa : list Q) :
  t <> [] -> length y_degrau = length t -> length y_rampa = length t ->
  (exists ld rd,
      erro_degrau t y_degrau = Ok ld
      /\ getitem ld (-1) = Ok rd
      /\ rd = 1 - last y_degrau 0
      /\ erro_estacionario y_degrau = Ok (Qabs rd))
  /\ (exists lr rr,
         erro_rampa t y_rampa = Ok lr
         /\ getitem lr (-1) = Ok rr
         /\ rr = 0.0001 * last t 0 - last y_rampa 0
         /\ erro_final_rampa lr = Ok rr).
Proof.
  intros Ht Hd Hr.
  assert (Hyd : y_degrau <> []) by (destruct y_degrau, t; simpl in *; congruence).
  assert (Hyr : y_rampa <> []) by (destruct y_rampa, t; simpl in *; congruence).
  split.
  - exists (Np.zip_with Qminus (ref_degrau t) y_degrau), (1 - last y_degrau 0).
    assert (Hl : length (ref_degrau t) = length y_degrau).
    { unfold ref_degrau, Np.ones_like. rewrite length_map. auto. }
    assert (Hn : ref_degrau t <> []).
    { unfold ref_degrau, Np.ones_like. destruct t; simpl; congruence. }
    split; [apply sub_same_length; exact Hl |].
    split.
    + rewrite (getitem_last _ (1 - 0)); [| apply zip_with_nonempty; assumption].
      rewrite (zip_with_last Qminus _ _ 1 0 Hl Hn).
      unfold ref_degrau, Np.ones_like.
      rewrite (last_map (fun _ : Q => 1) t 0). reflexivity.
    + split; [reflexivity |].
      unfold erro_estacionario. rewrite (getitem_last _ 0 Hyd). reflexivity.
  - exists (Np.zip_with Qminus (ref_rampa t) y_rampa),
           (0.0001 * last t 0 - last y_rampa 0).
    assert (Hl : length (ref_rampa t) = length y_rampa).
    { unfold ref_rampa, Np.scale. rewrite length_map. auto. }
    assert (Hn : ref_rampa t <> []).
    { unfold ref_rampa, Np.scale. destruct t; simpl; congruence. }
    assert (Hg : getitem (Np.zip_with Qminus (ref_rampa t) y_rampa) (-1) =
                 Ok (0.0001 * last t 0 - last y_rampa 0)).
    { rewrite (getitem_last _ (0.0001 * 0 - 0));
        [| apply zip_with_nonempty; assumption].
      rewrite (zip_with_last Qminus _ _ (0.0001 * 0) 0 Hl Hn).
      unfold ref_rampa, Np.scale.
      rewrite (last_map (fun x : Q => 0.0001 * x) t 0). reflexivity. }
    split; [apply sub_same_length; exact Hl |].
    split; [exact Hg |]. split; [reflexivity | exact Hg].
Qed.

Lemma final_errors_witness :
  (exists ld rd,
      erro_degrau [0; 126] [0.5; 2] = Ok ld
      /\ getitem ld (-1) = Ok rd
      /\ rd = 1 - last [0.5; 2] 0
      /\ erro_estacionario [0.5; 2] = Ok (Qabs rd))
  /\ (exists lr rr,
         erro_rampa [0; 126] [0; 1] = Ok lr
         /\ getitem lr (-1) = Ok rr
         /\ rr = 0.0001 * last [0; 126] 0 - last [0; 1] 0
         /\ erro_final_rampa lr = Ok rr).
Proof.
  apply (final_errors [0; 126] [0.5; 2] [0; 1]);
    [discriminate | reflexivity | reflexivity].
Defined.

(** ** Metrics: overshoot *)

Lemma fold_max_upper (r : list Q) (x : Q) :
  x <= fold_left Qmax r x /\ forall v, In v r -> v <= fold_left Qmax r x.
Proof.
  revert x. induction r as [| y r IH]; intros x; simpl.
  - split; [apply Qle_refl | tauto].
  - destruct (IH (Qmax x y)) as [H1 H2]. split.
    + eapply Qle_trans; [apply Q.le_max_l | exact H1].
    + intros v [-> | Hin]; [| auto].
      eapply Qle_trans; [apply Q.le_max_r | exact H1].
Qed.

Lemma fold_max_bounded (r : list Q) (x c : Q) :
  x <= c -> (forall v, In v r -> v <= c) -> fold_left Qmax r x <= c.
Proof.
  revert x. induction r as [| y r IH]; intros x Hx Hr; simpl; [exact Hx |].
  apply IH.
  - apply Q.max_lub; [exact Hx | apply Hr; left; reflexivity].
  - intros v Hv. apply Hr. right. exact Hv.
Qed.

Lemma max2_is_Qmax (a b : Q) : max2 a b == Qmax a b.
Proof.
  unfold max2, gt.
  destruct (Qle_bool b a) eqn:E; simpl.
  - apply Qle_bool_iff in E. symmetry. apply Q.max_l. exact E.
  - symmetry. apply Q.max_r.
    destruct (Qlt_le_dec a b) as [H | H]; [apply Qlt_le_weak; exact H |].
    apply Qle_bool_iff in H. congruence.
Qed.

(** C7. On a non-empty step trace the overshoot is
    [max(0, (max(output) - r) * 100)] where [r] is the final value of the
    step reference, and it is exactly [0] when no output sample exceeds
    [r]. *)
Theorem overshoot_formula (t y_degrau : list Q) :
  y_degrau <> [] -> length t = length y_degrau ->
  exists m r o,
    Np.max y_degrau = Ok m
    /\ (forall v, In v y_degrau -> v <= m)
    /\ getitem (ref_degrau t) (-1) = Ok r
    /\ overshoot y_degrau = Ok o
    /\ o == Qmax 0 ((m - r) * 100)
    /\ ((forall v, In v y_degrau -> v <= r) -> o = 0).
Proof.
  intros Hne Hlen.
  destruct y_degrau as [| x ys]; [congruence |].
  exists (fold_left Qmax ys x), 1, (max2 0 ((fold_left Qmax ys x - 1) * 100)).
  destruct (fold_max_upper ys x) as [Hx Hys].
  split; [reflexivity |].
  split; [intros v [-> | Hin]; auto |].
  split.
  { assert (Ht : ref_degrau t <> []).
    { unfold ref_degrau, Np.ones_like. destruct t; simpl in *; congruence. }
    rewrite (getitem_last _ ((fun _ : Q => 1) 0) Ht).
    unfold ref_degrau, Np.ones_like.
    rewrite (last_map (fun _ : Q => 1) t 0). reflexivity. }
  split; [reflexivity |].
  split; [apply max2_is_Qmax |].
  intros Hle.
  assert (Hm : fold_left Qmax ys x <= 1).
  { apply fold_max_bounded; [apply Hle; left; reflexivity |].
    intros v Hv. apply Hle. right. exact Hv. }
  unfold max2, gt.
  destruct (Qle_bool ((fold_left Qmax ys x - 1) * 100) 0) eqn:E; [reflexivity |].
  exfalso.
  assert (H : (fold_left Qmax ys x - 1) * 100 <= 0) by nra.
  apply Qle_bool_iff in H. congruence.
Qed.

Lemma overshoot_formula_witness :
  exists m r o,
    Np.max [0.5; 1.2; 1] = Ok m
    /\ (forall v, In v [0.5; 1.2; 1] -> v <= m)
    /\ getitem (ref_degrau [0; 126; 252]) (-1) = Ok r
    /\ overshoot [0.5; 1.2; 1] = Ok o
    /\ o == Qmax 0 ((m - r) * 100)
    /\ ((forall v, In v [0.5; 1.2; 1] -> v <= r) -> o = 0).
Proof.
  apply (overshoot_formula [0; 126; 252] [0.5; 1.2; 1]);
    [discriminate | reflexivity].
Defined.

(** ** Metrics on an empty trace *)

(** C8 fails as stated: on an empty trace the step block defaults the
    overshoot to 0 and then stops on an index-out-of-range error, which the
    handler prints; no [EmptyTraceError] is reported. *)
Lemma empty_trace_index_error :
  overshoot [] = Ok 0
  /\ IO.outcome (step_body [] [] []) = Raise IndexError
  /\ IO.outcome (step_body [] [] []) <> Raise EmptyTraceError
  /\ IO.printed (step_metrics [] [] []) = [StepHeader; StepFailure IndexError].
Proof.
  repeat split. vm_compute. discriminate.
Qed.

(** C8, amended. On an empty trace: the settling time is absent and the
    overshoot is [0]; the final value and the steady-state error stop on the
    index-out-of-range error of the language and the maximum effort on its
    empty-reduction error; the step block prints its header and the failure,
    the ramp block prints the failure only. *)
Theorem empty_trace_behaviour (t u : list Q) :
  settling_time t [] = Ok None
  /\ overshoot [] = Ok 0
  /\ getitem (@nil Q) (-1) = Raise IndexError
  /\ erro_estacionario [] = Raise IndexError
  /\ erro_final_rampa [] = Raise IndexError
  /\ esforco_maximo [] = Raise ValueError
  /\ IO.printed (step_metrics t [] u) = [StepHeader; StepFailure IndexError]
  /\ IO.printed (ramp_metrics [] u) = [RampFailure IndexError].
Proof.
  repeat split.
Qed.

(** ** Polynomial algebra *)

Lemma horner_compat (z : Q) (p : list Q) (x y : Q) :
  x == y -> horner z x p == horner z y p.
Proof.
  revert x y. induction p as [| c p IH]; intros x y H; simpl; [exact H |].
  apply IH. rewrite H. reflexivity.
Qed.

Lemma horner_app (z : Q) (p q : list Q) (x : Q) :
  horner z x (p ++ q) = horner z (horner z x p) q.
Proof. unfold horner. apply fold_left_app. Qed.

Lemma horner_zeros (z : Q) (n : nat) (x : Q) :
  horner z x (repeat 0 n) == x * qpow z n.
Proof.
  revert x. induction n as [| n IH]; intros x; simpl.
  - ring.
  - change (fold_left (fun r c : Q => r * z + c) (repeat 0 n) (x * z + 0))
      with (horner z (x * z + 0) (repeat 0 n)).
    rewrite IH. ring.
Qed.

Lemma horner_split (z : Q) (p : list Q) (x : Q) :
  horner z x p == x * qpow z (length p) + peval p z.
Proof.
  unfold peval. revert x. induction p as [| c p IH]; intros x; simpl.
  - ring.
  - change (fold_left (fun r c0 : Q => r * z + c0) p (x * z + c))
      with (horner z (x * z + c) p).
    change (fold_left (fun r c0 : Q => r * z + c0) p (0 * z + c))
      with (horner z (0 * z + c) p).
    rewrite (IH (x * z + c)), (IH (0 * z + c)). ring.
Qed.

Lemma length_pad (n : nat) (p : list Q) :
  (length p <= n)%nat -> length (pad n p) = n.
Proof.
  intros H. unfold pad. rewrite length_app, repeat_length. lia.
Qed.

Lemma peval_pad (n : nat) (p : list Q) (z : Q) :
  peval (pad n p) z == peval p z.
Proof.
  unfold peval, pad. rewrite horner_app.
  apply horner_compat. rewrite horner_zeros. ring.
Qed.

Lemma horner_zip_plus (z : Q) (a b : list Q) (x y : Q) :
  length a = length b ->
  horner z (x + y) (Np.zip_with Qplus a b) == horner z x a + horner z y b.
Proof.
  revert b x y. induction a as [| c a IH]; intros b x y Hlen;
    destruct b as [| d b]; try discriminate; simpl.
  - reflexivity.
  - change (fold_left (fun r c0 : Q => r * z + c0) (Np.zip_with Qplus a b)
                      ((x + y) * z + (c + d)))
      with (horner z ((x + y) * z + (c + d)) (Np.zip_with Qplus a b)).
    rewrite (horner_compat z _ _ ((x * z + c) + (y * z + d))) by ring.
    apply IH. simpl in Hlen. lia.
Qed.

Lemma peval_polyadd (p q : list Q) (z : Q) :
  peval (polyadd p q) z == peval p z + peval q z.
Proof.
  unfold polyadd. cbv zeta.
  set (n := Nat.max (length p) (length q)).
  unfold peval at 1.
  rewrite (horner_compat z _ 0 (0 + 0)) by ring.
  rewrite horner_zip_plus.
  - change (horner z 0 (pad n p)) with (peval (pad n p) z).
    change (horner z 0 (pad n q)) with (peval (pad n q) z).
    rewrite !peval_pad. reflexivity.
  - rewrite !length_pad; subst n; lia.
Qed.

Lemma horner_scale (z a : Q) (q : list Q) (x : Q) :
  horner z (a * x) (map (Qmult a) q) == a * horner z x q.
Proof.
  revert x. induction q as [| c q IH]; intros x; simpl; [reflexivity |].
  change (fold_left (fun r c0 : Q => r * z + c0) (map (Qmult a) q)
                    (a * x * z + a * c))
    with (horner z (a * x * z + a * c) (map (Qmult a) q)).
  rewrite (horner_compat z _ _ (a * (x * z + c))) by ring.
  apply IH.
Qed.

Lemma peval_scale (z a : Q) (q : list Q) :
  peval (map (Qmult a) q) z == a * peval q z.
Proof.
  unfold peval. rewrite (horner_compat z _ 0 (a * 0)) by ring.
  apply horner_scale.
Qed.

Lemma peval_cons (z c : Q) (p : list Q) :
  peval (c :: p) z == c * qpow z (length p) + peval p z.
Proof.
  unfold peval at 1. simpl.
  change (fold_left (fun r c0 : Q => r * z + c0) p (0 * z + c))
    with (horner z (0 * z + c) p).
  rewrite horner_split. ring.
Qed.

(** The coefficient product is the product of the polynomials. *)
Lemma peval_polymul (p q : list Q) (z : Q) :
  peval (polymul p q) z == peval p z * peval q z.
Proof.
  induction p as [| a p IH]; simpl polymul.
  - unfold peval; simpl. ring.
  - rewrite peval_polyadd, IH, peval_cons.
    unfold peval at 1. rewrite horner_app.
    rewrite horner_zeros.
    change (horner z 0 (map (Qmult a) q)) with (peval (map (Qmult a) q) z).
    rewrite peval_scale. ring.
Qed.

Lemma length_zip_with (f : Q -> Q -> Q) (a b : list Q) :
  length (Np.zip_with f a b) = Nat.min (length a) (length b).
Proof.
  revert b. induction a as [| x a IH]; intros [| y b]; simpl; auto.
Qed.

Lemma length_polyadd (p q : list Q) :
  length (polyadd p q) = Nat.max (length p) (length q).
Proof.
  unfold polyadd. cbv zeta. rewrite length_zip_with, !length_pad; lia.
Qed.

Lemma zip_plus_zeros (n : nat) (l : list Q) :
  length l = n -> Forall2 Qeq (Np.zip_with Qplus (repeat 0 n) l) l.
Proof.
  revert l. induction n as [| n IH]; intros [| x l] H; try discriminate; simpl.
  - constructor.
  - constructor; [ring | apply IH; simpl in H; lia].
Qed.

Lemma polymul_cons (a : Q) (p q : list Q) :
  polymul (a :: p) q =
  polyadd (map (Qmult a) q ++ repeat 0 (length p)) (polymul p q).
Proof. reflexivity. Qed.

Lemma length_polymul_one (p : list Q) : length (polymul p [1]) = length p.
Proof.
  induction p as [| a p IH]; [reflexivity |].
  rewrite polymul_cons.
  rewrite length_polyadd, IH, length_app, length_map, repeat_length.
  simpl length. lia.
Qed.

(** Multiplying by the constant polynomial [1] changes no coefficient. *)
Lemma polymul_one (p : list Q) : Forall2 Qeq (polymul p [1]) p.
Proof.
  induction p as [| a p IH]; [constructor |].
  rewrite polymul_cons. unfold polyadd. cbv zeta.
  rewrite length_app, length_map, repeat_length, length_polymul_one.
  change (length [1]) with 1%nat.
  replace (Nat.max (1 + length p) (length p)) with (S (length p)) by lia.
  unfold pad.
  rewrite length_app, length_map, repeat_length, length_polymul_one.
  change (length [1]) with 1%nat.
  replace (S (length p) - (1 + length p))%nat with 0%nat by lia.
  replace (S (length p) - length p)%nat with 1%nat by lia.
  simpl. constructor; [ring |].
  assert (Hz := zip_plus_zeros (length p) (polymul p [1])
                               (length_polymul_one p)).
  clear - Hz IH. revert Hz IH.
  generalize (Np.zip_with Qplus (repeat 0 (length p)) (polymul p [1])).
  generalize (polymul p [1]).
  intros m l Hml. revert p.
  induction Hml as [| x y l m Hxy Hlm IHl]; intros p Hp.
  - exact Hp.
  - inversion Hp; subst. constructor; [| apply IHl; assumption].
    etransitivity; eassumption.
Qed.

Lemma Forall2_Qeq_refl (l : list Q) : Forall2 Qeq l l.
Proof. induction l; constructor; [reflexivity | assumption]. Qed.

Lemma pad_compat (n : nat) (p p' : list Q) :
  Forall2 Qeq p p' -> Forall2 Qeq (pad n p) (pad n p').
Proof.
  intros H. unfold pad. rewrite (Forall2_length H).
  apply Forall2_app; [apply Forall2_Qeq_refl | exact H].
Qed.

Lemma zip_plus_compat (a a' b b' : list Q) :
  Forall2 Qeq a a' -> Forall2 Qeq b b' ->
  Forall2 Qeq (Np.zip_with Qplus a b) (Np.zip_with Qplus a' b').
Proof.
  intros Ha. revert b b'.
  induction Ha as [| x x' a a' Hx Ha IH]; intros b b' Hb; simpl.
  - constructor.
  - destruct Hb as [| y y' b b' Hy Hb]; constructor.
    + rewrite Hx, Hy. reflexivity.
    + apply IH. exact Hb.
Qed.

Lemma polyadd_compat (p p' q q' : list Q) :
  Forall2 Qeq p p' -> Forall2 Qeq q q' ->
  Forall2 Qeq (polyadd p q) (polyadd p' q').
Proof.
  intros Hp Hq. unfold polyadd. cbv zeta.
  rewrite (Forall2_length Hp), (Forall2_length Hq).
  apply zip_plus_compat; apply pad_compat; assumption.
Qed.

(** ** Closed-loop composer *)

(** C3. For a controller and a plant with the same sample period, the
    unity-negative-feedback loop has numerator [num(C) num(G)] and
    denominator [den(C) den(G) + num(C) num(G)], coefficient by coefficient,
    the sum being taken after alignment with leading zeros; as polynomials in
    [z] they are that product and that sum of products. *)
Theorem closed_loop_polynomials (C G : TransferFunction) :
  dt C == dt G ->
  exists cl,
    sys_cl C G = Ok cl
    /\ Forall2 Qeq (num cl) (polymul (num C) (num G))
    /\ Forall2 Qeq (den cl)
         (polyadd (polymul (den C) (den G)) (polymul (num C) (num G)))
    /\ dt cl = dt C
    /\ forall z,
        peval (num cl) z == peval (num C) z * peval (num G) z
        /\ peval (den cl) z ==
           peval (den C) z * peval (den G) z
           + peval (num C) z * peval (num G) z.
Proof.
  intros Hdt. unfold sys_cl, tf_mul.
  apply Qeq_bool_iff in Hdt. rewrite Hdt. simpl bind.
  unfold feedback, tf_const. simpl dt. simpl num. simpl den.
  assert (Hrefl : Qeq_bool (dt C) (dt C) = true)
    by (apply Qeq_bool_iff; reflexivity).
  rewrite Hrefl.
  eexists. split; [reflexivity |]. simpl num. simpl den. simpl dt.
  split; [apply polymul_one |].
  split; [apply polyadd_compat; apply polymul_one |].
  split; [reflexivity |].
  intros z. split.
  - rewrite !peval_polymul. unfold peval at 3. simpl. ring.
  - rewrite peval_polyadd, !peval_polymul. unfold peval at 3 6. simpl. ring.
Qed.

Lemma closed_loop_polynomials_witness :
  1 == 1 /\
  exists cl,
    sys_cl (tf [1; -1; 0] [1; -1; 0] 1) (tf [0.5] [1; -0.5] 1) = Ok cl
    /\ dt cl = 1.
Proof.
  split; [reflexivity |].
  destruct (closed_loop_polynomials
              (tf [1; -1; 0] [1; -1; 0] 1) (tf [0.5] [1; -0.5] 1))
    as (cl & Hcl & _ & _ & Hdt & _); [reflexivity |].
  exists cl. split; [exact Hcl | exact Hdt].
Defined.

(** ** Time-domain simulator *)

Lemma sumQ_ext (f g : nat -> Q) (l : list nat) :
  (forall k, In k l -> f k == g k) ->
  Sim.sumQ (map f l) == Sim.sumQ (map g l).
Proof.
  induction l as [| k l IH]; intros H; simpl; [reflexivity |].
  rewrite (H k) by (left; reflexivity).
  rewrite IH; [reflexivity |].
  intros j Hj. apply H. right. exact Hj.
Qed.

Lemma sumQ_zero (f : nat -> Q) (l : list nat) :
  (forall k, In k l -> f k == 0) -> Sim.sumQ (map f l) == 0.
Proof.
  induction l as [| k l IH]; intros H; simpl; [reflexivity |].
  rewrite (H k) by (left; reflexivity).
  rewrite IH; [ring |].
  intros j Hj. apply H. right. exact Hj.
Qed.

Lemma sample_nonneg (l : list Q) (k : nat) :
  Sim.sample l (Z.of_nat k) = nth k l 0.
Proof.
  unfold Sim.sample.
  destruct (Z.of_nat k <? 0)%Z eqn:E; [apply Z.ltb_lt in E; lia |].
  rewrite Nat2Z.id. reflexivity.
Qed.

Lemma sample_negative (l : list Q) (i : Z) : (i < 0)%Z -> Sim.sample l i = 0.
Proof.
  intros H. unfold Sim.sample. apply Z.ltb_lt in H. rewrite H. reflexivity.
Qed.

(** The inner product with a history is the indexed sum over the sequence
    the history was taken from, whatever follows it. *)
Lemma dot_history (c h rest : list Q) :
  Sim.dot c h ==
  Sim.sumQ (map (fun k => nth k c 0 *
                          Sim.sample (rev h ++ rest)
                                     (Z.of_nat (length h) - 1 - Z.of_nat k))
                (seq 0 (length c))).
Proof.
  revert h rest. induction c as [| x c IH]; intros h rest; [reflexivity |].
  destruct h as [| v h].
  - simpl Sim.dot. symmetry. apply sumQ_zero.
    intros k _. rewrite sample_negative by (simpl length; lia). ring.
  - change (Sim.dot (x :: c) (v :: h)) with (x * v + Sim.dot c h).
    change (length (x :: c)) with (S (length c)).
    rewrite <- cons_seq, <- seq_shift, map_cons, map_map.
    change (Sim.sumQ (?a :: ?l)) with (a + Sim.sumQ l).
    rewrite (IH h (v :: rest)).
    assert (Hrev : rev (v :: h) ++ rest = rev h ++ v :: rest).
    { simpl. rewrite <- app_assoc. reflexivity. }
    rewrite Hrev.
    replace (Z.of_nat (length (v :: h)) - 1 - Z.of_nat 0)%Z
      with (Z.of_nat (length h)) by (simpl length; lia).
    rewrite sample_nonneg.
    rewrite app_nth2 by (rewrite length_rev; lia).
    rewrite length_rev, Nat.sub_diag.
    change (nth 0 (x :: c) 0) with x. change (nth 0 (v :: rest) 0) with v.
    apply Qplus_comp; [reflexivity |].
    apply sumQ_ext. intros k _.
    change (nth (S k) (x :: c) 0) with (nth k c 0).
    replace (Z.of_nat (length (v :: h)) - 1 - Z.of_nat (S k))%Z
      with (Z.of_nat (length h) - 1 - Z.of_nat k)%Z by (simpl length; lia).
    reflexivity.
Qed.

Lemma length_run (b a' : list Q) (a0 : Q) (u uh yh : list Q) :
  length (Sim.run b a' a0 uh yh u) = length u.
Proof.
  revert uh yh. induction u as [| x u IH]; intros uh yh; simpl; [reflexivity |].
  rewrite IH. reflexivity.
Qed.

(** Invariant of the recursion: each sample produced satisfies the
    difference equation read over the whole input and output, histories
    included. *)
Lemma run_equation (b a' : list Q) (a0 : Q) (u uh yh : list Q) (n : nat) :
  length uh = length yh -> (n < length u)%nat ->
  nth (length uh + n) (rev yh ++ Sim.run b a' a0 uh yh u) 0 ==
  (1 / a0) *
  (Sim.sumQ (map (fun k => nth k b 0 *
                           Sim.sample (rev uh ++ u)
                                      (Z.of_nat (length uh + n) - Z.of_nat k))
                 (seq 0 (length b)))
   - Sim.sumQ (map (fun k => nth k a' 0 *
                             Sim.sample (rev yh ++ Sim.run b a' a0 uh yh u)
                               (Z.of_nat (length uh + n) - 1 - Z.of_nat k))
                   (seq 0 (length a')))).
Proof.
  revert uh yh n. induction u as [| x u IH]; intros uh yh n Hh Hn;
    [simpl in Hn; lia |].
  set (y0 := (1 / a0) * (Sim.dot b (x :: uh) - Sim.dot a' yh)).
  change (Sim.run b a' a0 uh yh (x :: u))
    with (y0 :: Sim.run b a' a0 (x :: uh) (y0 :: yh) u).
  destruct n as [| n].
  - rewrite Nat.add_0_r.
    rewrite app_nth2 by (rewrite length_rev; lia).
    rewrite length_rev, Hh, Nat.sub_diag.
    change (nth 0 (y0 :: ?l) 0) with y0. unfold y0.
    rewrite (dot_history b (x :: uh) u).
    rewrite (dot_history a' yh
               (y0 :: Sim.run b a' a0 (x :: uh) (y0 :: yh) u)).
    fold y0.
    assert (Hrev : rev (x :: uh) ++ u = rev uh ++ x :: u).
    { simpl. rewrite <- app_assoc. reflexivity. }
    rewrite Hrev.
    apply Qmult_comp; [reflexivity |].
    apply Qplus_comp; [| apply Qopp_comp].
    + apply sumQ_ext. intros k _.
      replace (Z.of_nat (length (x :: uh)) - 1 - Z.of_nat k)%Z
        with (Z.of_nat (length yh) - Z.of_nat k)%Z by (simpl length; lia).
      reflexivity.
    + apply sumQ_ext. intros k _. reflexivity.
  - assert (Hu : rev (x :: uh) ++ u = rev uh ++ x :: u).
    { simpl. rewrite <- app_assoc. reflexivity. }
    assert (Hy : rev (y0 :: yh) ++ Sim.run b a' a0 (x :: uh) (y0 :: yh) u =
                 rev yh ++ y0 :: Sim.run b a' a0 (x :: uh) (y0 :: yh) u).
    { simpl. rewrite <- app_assoc. reflexivity. }
    assert (Hi : (length (x :: uh) + n = length uh + S n)%nat)
      by (simpl; lia).
    specialize (IH (x :: uh) (y0 :: yh) n).
    rewrite Hu, Hy, Hi in IH.
    apply IH; simpl in *; lia.
Qed.

(** From rest, every output sample satisfies the difference equation. *)
Lemma difference_equation_holds (b a u : list Q) (n : nat) :
  (n < length u)%nat ->
  nth n (Sim.difference_equation b a u) 0 ==
  Sim.rhs b a u (Sim.difference_equation b a u) n.
Proof.
  intros Hn. unfold Sim.difference_equation, Sim.rhs.
  pose proof (run_equation b (tl a) (hd 0 a) u [] [] n eq_refl Hn) as H.
  simpl in H. rewrite H. clear H.
  apply Qmult_comp; [reflexivity |].
  apply Qplus_comp; [reflexivity | apply Qopp_comp].
  destruct a as [| a0 a']; [reflexivity |].
  simpl tl. simpl hd.
  replace (length (a0 :: a') - 1)%nat with (length a') by (simpl; lia).
  rewrite <- seq_shift, map_map.
  apply sumQ_ext. intros k _.
  change (nth (S k) (a0 :: a') 0) with (nth k a' 0).
  replace (Z.of_nat n - Z.of_nat (S k))%Z
    with (Z.of_nat n - 1 - Z.of_nat k)%Z by lia.
  reflexivity.
Qed.

Lemma run_identity (u uh yh : list Q) :
  Forall2 Qeq (Sim.run [1] [] 1 uh yh u) u.
Proof.
  revert uh yh. induction u as [| x u IH]; intros uh yh; simpl.
  - constructor.
  - constructor; [| apply IH].
    destruct uh; simpl; field.
Qed.

(** C4. On a matching time grid the simulator returns an output as long as
    the input whose every sample satisfies
    [y[n] = (1/a0) (sum_k b_k u[n-k] - sum_{k>=1} a_k y[n-k])], the terms at
    negative positions being zero; for the identity system, numerator [1]
    and denominator [1], the output equals the input sample by sample. *)
Theorem simulator_difference_equation (sys : TransferFunction) (t u : list Q) :
  Sim.grid_ok (dt sys) t = true -> length t = length u ->
  exists y,
    simulate sys t u = Ok y
    /\ forced_response sys t u = Ok (t, y)
    /\ length y = length u
    /\ (forall n, (n < length u)%nat ->
                  nth n y 0 == Sim.rhs (num sys) (den sys) u y n)
    /\ (num sys = [1] -> den sys = [1] -> Forall2 Qeq y u).
Proof.
  intros Hgrid Hlen.
  exists (Sim.difference_equation (num sys) (den sys) u).
  assert (Hs : simulate sys t u =
               Ok (Sim.difference_equation (num sys) (den sys) u)).
  { unfold simulate. rewrite Hgrid, Hlen, Nat.eqb_refl. reflexivity. }
  split; [exact Hs |].
  split; [unfold forced_response; rewrite Hs; reflexivity |].
  split; [apply length_run |].
  split; [intros n Hn; apply difference_equation_holds; exact Hn |].
  intros Hnum Hden. rewrite Hnum, Hden. apply run_identity.
Qed.

Lemma simulator_difference_equation_witness :
  Sim.grid_ok 126 [0; 126; 252] = true /\
  exists y,
    simulate (tf [1] [1] 126) [0; 126; 252] [3; 4; 5] = Ok y
    /\ Forall2 Qeq y [3; 4; 5].
Proof.
  split; [reflexivity |].
  destruct (simulator_difference_equation
              (tf [1] [1] 126) [0; 126; 252] [3; 4; 5])
    as (y & Hy & _ & _ & _ & Hid); [reflexivity | reflexivity |].
  exists y. split; [exact Hy | apply Hid; reflexivity].
Defined.

(** ** Zero-order-hold discretiser *)

Section ZohProperties.

Local Open Scope R_scope.

Lemma M2_eq (a b c d a' b' c' d' : R) :
  a = a' -> b = b' -> c = c' -> d = d' ->
  Zoh.m2 a b c d = Zoh.m2 a' b' c' d'.
Proof. intros; subst; reflexivity. Qed.

(** Powers of an augmented matrix keep its shape. *)
Lemma Mpow_augmented (x y : R) (n : nat) :
  Zoh.Mpow (Zoh.m2 x y 0 0) (S n) = Zoh.m2 (x ^ S n) (x ^ n * y) 0 0.
Proof.
  induction n as [| n IH].
  - simpl. unfold Zoh.Mmul, Zoh.Mid; simpl. apply M2_eq; ring.
  - change (Zoh.Mpow (Zoh.m2 x y 0 0) (S (S n)))
      with (Zoh.Mmul (Zoh.m2 x y 0 0) (Zoh.Mpow (Zoh.m2 x y 0 0) (S n))).
    rewrite IH. unfold Zoh.Mmul; simpl. apply M2_eq; ring.
Qed.

Lemma expm_partial_S (X : Zoh.M2) (N : nat) :
  Zoh.expm_partial X (S N) =
  Zoh.Madd (Zoh.expm_partial X N)
           (Zoh.Mscale (/ INR (fact (S N))) (Zoh.Mpow X (S N))).
Proof. reflexivity. Qed.

(** The partial sums of the matrix series, entry by entry. *)
Lemma expm_partial_entries (x y : R) (N : nat) :
  Zoh.m11 (Zoh.expm_partial (Zoh.m2 x y 0 0) N) = Zoh.exp_partial x N
  /\ x * Zoh.m12 (Zoh.expm_partial (Zoh.m2 x y 0 0) N) =
     y * (Zoh.exp_partial x N - 1)
  /\ Zoh.m21 (Zoh.expm_partial (Zoh.m2 x y 0 0) N) = 0
  /\ Zoh.m22 (Zoh.expm_partial (Zoh.m2 x y 0 0) N) = 1.
Proof.
  induction N as [| N (H11 & H12 & H21 & H22)].
  - unfold Zoh.exp_partial, Zoh.exp_term. simpl.
    repeat split; try reflexivity; try field.
  - rewrite expm_partial_S, Mpow_augmented.
    unfold Zoh.Madd, Zoh.Mscale. cbn [Zoh.m11 Zoh.m12 Zoh.m21 Zoh.m22].
    unfold Zoh.exp_partial in *.
    rewrite tech5, H11, H21, H22.
    change (Zoh.exp_term x (S N)) with (/ INR (fact (S N)) * (x * x ^ N)).
    change (x ^ S N) with (x * x ^ N).
    generalize dependent (/ INR (fact (S N))). intros f.
    generalize dependent (sum_f_R0 (Zoh.exp_term x) N). intros S0 H11 H12.
    repeat split; try ring.
    rewrite Rmult_plus_distr_l, H12. ring.
Qed.

Lemma expm_partial_m12_zero (y : R) (N : nat) :
  Zoh.m12 (Zoh.expm_partial (Zoh.m2 0 y 0 0) (S N)) = y.
Proof.
  induction N as [| N IH].
  - simpl. field.
  - rewrite expm_partial_S, Mpow_augmented.
    unfold Zoh.Madd, Zoh.Mscale. cbn [Zoh.m12].
    rewrite IH. rewrite pow_ne_zero by discriminate. ring.
Qed.

Lemma exp_series (x : R) : Un_cv (Zoh.exp_partial x) (exp x).
Proof.
  unfold exp. destruct (exist_exp x) as [l Hl]. simpl.
  exact Hl.
Qed.

Lemma Un_cv_eventually (U V : nat -> R) (l : R) (N0 : nat) :
  (forall n, (N0 <= n)%nat -> U n = V n) -> Un_cv V l -> Un_cv U l.
Proof.
  intros Heq HV eps Heps. destruct (HV eps Heps) as [N HN].
  exists (Nat.max N N0). intros n Hn.
  rewrite Heq by lia. apply HN. lia.
Qed.

Lemma Un_cv_const (c : R) : Un_cv (fun _ => c) c.
Proof.
  intros eps Heps. exists 0%nat. intros n _.
  unfold R_dist. rewrite Rminus_diag, Rabs_R0. exact Heps.
Qed.

(** The exponential of the augmented matrix [[A T, B T], [0, 0]]: the
    series converges, entry by entry, to [[Phi, Gamma], [0, 1]]. *)
Lemma exponential_first_row (s : Zoh.StateSpace) (T : R) :
  Un_cv (fun N => Zoh.m11 (Zoh.expm_partial (Zoh.augmented s T) N))
        (Zoh.Phi (Zoh.ssA s) T)
  /\ Un_cv (fun N => Zoh.m12 (Zoh.expm_partial (Zoh.augmented s T) N))
           (Zoh.Gamma (Zoh.ssA s) (Zoh.ssB s) T)
  /\ (forall N, Zoh.m21 (Zoh.expm_partial (Zoh.augmented s T) N) = 0)
  /\ (forall N, Zoh.m22 (Zoh.expm_partial (Zoh.augmented s T) N) = 1).
Proof.
  destruct s as [a b c d]. unfold Zoh.augmented, Zoh.Phi, Zoh.Gamma.
  cbn [Zoh.ssA Zoh.ssB].
  set (x := a * T). set (y := b * T).
  split; [| split; [| split]].
  - apply (Un_cv_eventually _ (Zoh.exp_partial x) _ 0%nat);
      [| apply exp_series].
    intros n _. apply (expm_partial_entries x y n).
  - destruct (Req_dec_T a 0) as [Ha | Ha].
    + apply (Un_cv_eventually _ (fun _ => b * T) _ 1%nat);
        [| apply Un_cv_const].
      intros n Hn. destruct n as [| n]; [lia |].
      assert (Hx : x = 0) by (unfold x; rewrite Ha; ring).
      rewrite Hx. apply expm_partial_m12_zero.
    + destruct (Req_dec_T T 0) as [HT | HT].
      * assert (Hx : x = 0) by (unfold x; rewrite HT; ring).
        assert (Hy : y = 0) by (unfold y; rewrite HT; ring).
        rewrite Hx, Hy.
        replace ((exp 0 - 1) / a * b) with 0
          by (rewrite exp_0; field; exact Ha).
        apply (Un_cv_eventually _ (fun _ => 0) _ 1%nat);
          [| apply Un_cv_const].
        intros n Hn. destruct n as [| n]; [lia |].
        apply expm_partial_m12_zero.
      * assert (Hx : x <> 0)
          by (unfold x; apply Rmult_integral_contrapositive; tauto).
        apply (Un_cv_eventually
                 _ (fun N => y / x * (Zoh.exp_partial x N - 1)) _ 0%nat).
        { intros n _.
          destruct (expm_partial_entries x y n) as (_ & H12 & _).
          apply (Rmult_eq_reg_l x); [| exact Hx].
          rewrite H12. field. exact Hx. }
        replace ((exp x - 1) / a * b) with (y / x * (exp x - 1))
          by (unfold x, y; field; tauto).
        apply CV_mult; [apply Un_cv_const |].
        apply CV_minus; [apply exp_series | apply Un_cv_const].
  - intros N. apply (expm_partial_entries x y N).
  - intros N. apply (expm_partial_entries x y N).
Qed.

Lemma zoh_pole_range (tau T : R) :
  0 < tau -> 0 < T -> 0 < exp (- T / tau) < 1.
Proof.
  intros Htau HT. split; [apply exp_pos |].
  rewrite <- exp_0. apply exp_increasing.
  assert (H : 0 < T / tau) by (apply Rdiv_lt_0_compat; assumption).
  unfold Rdiv in *. rewrite <- Ropp_mult_distr_l. lra.
Qed.

(** C2. For [tau > 0] and [T > 0] the zero-order-hold discretisation of
    [K / (tau s + 1)] has the constant numerator [K (1 - e^(-T/tau))] and
    the denominator [1, -e^(-T/tau)], whose only root is the pole
    [e^(-T/tau)]; its DC gain [sum(numerator) / sum(denominator)] is [K],
    the DC gain of the continuous plant. *)
Theorem zoh_first_order_plant (K tau T : R) :
  0 < tau -> 0 < T ->
  Zoh.cont2discrete K tau T =
  ([0; K * (1 - exp (- T / tau))], [1; - exp (- T / tau)])
  /\ (forall z, Zoh.peval (fst (Zoh.cont2discrete K tau T)) z =
                K * (1 - exp (- T / tau)))
  /\ (forall z, Zoh.peval (snd (Zoh.cont2discrete K tau T)) z = 0 <->
                z = exp (- T / tau))
  /\ Zoh.dc_gain (Zoh.cont2discrete K tau T) = K
  /\ Zoh.dc_gain_cont (Zoh.Gp_cont K tau) = K.
Proof.
  intros Htau HT.
  assert (Hne : tau <> 0) by lra.
  assert (Harg : - (1 / tau) * T = - T / tau) by (field; exact Hne).
  assert (Heq : Zoh.cont2discrete K tau T =
                ([0; K * (1 - exp (- T / tau))], [1; - exp (- T / tau)])).
  { unfold Zoh.cont2discrete, Zoh.ss2tf, Zoh.zoh, Zoh.tf2ss,
      Zoh.Phi, Zoh.Gamma.
    cbn [Zoh.ssA Zoh.ssB Zoh.ssC Zoh.ssD].
    destruct (Req_dec_T (- (1 / tau)) 0) as [H0 | H0].
    - exfalso. assert (0 < 1 / tau) by (apply Rdiv_lt_0_compat; lra). lra.
    - rewrite Harg. f_equal. f_equal. f_equal. field. exact Hne. }
  destruct (zoh_pole_range tau T Htau HT) as [Hp0 Hp1].
  rewrite Heq. cbn [fst snd].
  split; [reflexivity |].
  split; [intros z; unfold Zoh.peval; simpl; ring |].
  split; [intros z; unfold Zoh.peval; simpl; split; intros H; lra |].
  split.
  - unfold Zoh.dc_gain, Zoh.coeff_sum. simpl. field. lra.
  - unfold Zoh.dc_gain_cont, Zoh.Gp_cont, Zoh.peval. simpl. field.
Qed.

Lemma zoh_first_order_plant_witness :
  0 < 3787 /\ 0 < 126 /\
  Zoh.dc_gain (Zoh.cont2discrete 1855 3787 126) = 1855.
Proof.
  split; [lra |]. split; [lra |].
  apply (zoh_first_order_plant 1855 3787 126); lra.
Defined.




End ZohProperties.



(** ** Further properties of the settling-time scan *)

Lemma getitem_nth {A : Type} (l : list A) (i : Z) (d : A) :
  (0 <= i < len l)%Z -> getitem l i = Ok (nth (Z.to_nat i) l d).
Proof.
  intros [H0 H1]. unfold getitem, len in *.
  destruct (i <? 0)%Z eqn:E; [apply Z.ltb_lt in E; lia |].
  rewrite E.
  destruct (nth_error l (Z.to_nat i)) eqn:En.
  - f_equal. symmetry. apply nth_error_nth. exact En.
  - apply nth_error_None in En. lia.
Qed.

Lemma range_down_nil (start stop : Z) :
  (start <= stop)%Z -> range_down start stop = [].
Proof.
  intros H. unfold range_down.
  replace (Z.to_nat (start - stop)) with 0%nat by lia. reflexivity.
Qed.

Lemma range_down_step (start stop : Z) :
  (stop < start)%Z ->
  range_down start stop = start :: range_down (start - 1) stop.
Proof.
  intros H. unfold range_down.
  replace (Z.to_nat (start - stop)) with (S (Z.to_nat (start - 1 - stop)))
    by lia.
  rewrite <- cons_seq, <- seq_shift, map_cons, map_map.
  f_equal; [simpl; lia |].
  apply map_ext. intros k. lia.
Qed.

Lemma range_down_in (start stop i : Z) :
  In i (range_down start stop) <-> (stop < i <= start)%Z.
Proof.
  unfold range_down. rewrite in_map_iff. split.
  - intros (k & <- & Hk). apply in_seq in Hk. lia.
  - intros H. exists (Z.to_nat (start - i)). split; [lia |].
    apply in_seq. lia.
Qed.

(** What the scan over [range(start, stop, -1)] returns on traces of equal
    length: the instant of the highest in-band index of the range, or
    nothing when the range holds no in-band sample. *)
Lemma settling_scan_range (t y : list Q) (n : nat) :
  length t = length y ->
  forall start stop : Z,
    Z.to_nat (start - stop) = n -> (0 <= stop)%Z -> (start < len y)%Z ->
    (exists i : nat,
        (stop < Z.of_nat i <= start)%Z
        /\ in_band (nth i y 0) = true
        /\ (forall j : nat, (Z.of_nat i < Z.of_nat j <= start)%Z ->
                            in_band (nth j y 0) = false)
        /\ settling_scan t y (range_down start stop) = Ok (Some (nth i t 0)))
    \/ ((forall j : nat, (stop < Z.of_nat j <= start)%Z ->
                         in_band (nth j y 0) = false)
        /\ settling_scan t y (range_down start stop) = Ok None).
Proof.
  intros Hlen. induction n as [| n IH]; intros start stop Hn Hstop Hstart.
  - right. split; [intros j Hj; lia |].
    rewrite range_down_nil by lia. reflexivity.
  - assert (Hlt : (stop < start)%Z) by lia.
    rewrite (range_down_step start stop Hlt).
    assert (Hy : getitem y start = Ok (nth (Z.to_nat start) y 0))
      by (apply getitem_nth; lia).
    assert (Ht : getitem t start = Ok (nth (Z.to_nat start) t 0))
      by (apply getitem_nth; unfold len in *; rewrite Hlen; lia).
    simpl settling_scan. rewrite Hy. simpl bind.
    destruct (in_band (nth (Z.to_nat start) y 0)) eqn:Hb.
    + left. exists (Z.to_nat start). rewrite Ht. simpl bind.
      split; [lia |]. split; [exact Hb |]. split; [intros j Hj; lia |].
      reflexivity.
    + destruct (IH (start - 1)%Z stop) as
        [(i & Hi & Hbi & Hafter & Hscan) | (Hall & Hscan)]; try lia.
      * left. exists i. split; [lia |]. split; [exact Hbi |].
        split; [| exact Hscan].
        intros j Hj. destruct (Z.eq_dec (Z.of_nat j) start) as [E | E].
        -- replace j with (Z.to_nat start) by lia. exact Hb.
        -- apply Hafter. lia.
      * right. split; [| exact Hscan].
        intros j Hj. destruct (Z.eq_dec (Z.of_nat j) start) as [E | E].
        -- replace j with (Z.to_nat start) by lia. exact Hb.
        -- apply Hall. lia.
Qed.

Lemma settling_time_cases (t y : list Q) :
  length t = length y -> (10 < length y)%nat ->
  (exists i : nat,
      (1 <= i < length y)%nat /\ (length y < i + 100)%nat
      /\ in_band (nth i y 0) = true
      /\ (forall j : nat, (i < j < length y)%nat ->
                          in_band (nth j y 0) = false)
      /\ settling_time t y = Ok (Some (nth i t 0)))
  \/ ((forall j : nat, (1 <= j < length y)%nat -> (length y < j + 100)%nat ->
                       in_band (nth j y 0) = false)
      /\ settling_time t y = Ok None).
Proof.
  intros Hlen Hgt. unfold settling_time.
  apply length_gt_10 in Hgt as Hg. rewrite Hg.
  destruct (settling_scan_range t y
              (Z.to_nat (len y - 1 - Z.max 0 (len y - 100))) Hlen
              (len y - 1)%Z (Z.max 0 (len y - 100)) eq_refl)
    as [(i & Hi & Hb & Hafter & Hscan) | (Hall & Hscan)];
    try (unfold len; lia).
  - left. exists i. unfold len in *.
    split; [lia |]. split; [lia |]. split; [exact Hb |].
    split; [| exact Hscan].
    intros j Hj. apply Hafter. lia.
  - right. split; [| exact Hscan].
    intros j Hj1 Hj2. apply Hall. unfold len. lia.
Qed.

(** X1. When the scan reports a settling time on traces of equal length, it
    is the instant of an in-band sample among the last 99 samples, index 0
    excluded, and every later sample of the trace is out of band. *)
Theorem settling_time_found (t y : list Q) (v : Q) :
  length t = length y ->
  settling_time t y = Ok (Some v) ->
  exists i : nat,
    (10 < length y)%nat
    /\ (1 <= i < length y)%nat /\ (length y < i + 100)%nat
    /\ in_band (nth i y 0) = true
    /\ v = nth i t 0
    /\ forall j : nat, (i < j < length y)%nat -> in_band (nth j y 0) = false.
Proof.
  intros Hlen Hst.
  destruct (le_lt_dec (length y) 10) as [Hle | Hgt].
  - unfold settling_time in Hst.
    destruct (len y >? 10)%Z eqn:E; [apply length_gt_10 in E; lia |].
    discriminate Hst.
  - destruct (settling_time_cases t y Hlen Hgt)
      as [(i & Hi1 & Hi2 & Hb & Hafter & Hscan) | (_ & Hscan)].
    + exists i. rewrite Hscan in Hst. injection Hst as <-.
      repeat split; try assumption; lia.
    + rewrite Hscan in Hst. discriminate Hst.
Qed.

Lemma settling_time_found_witness :
  exists i : nat,
    (10 < length [0; 0; 0; 0; 0; 0; 0; 0; 0; 0; 1; 2])%nat
    /\ (1 <= i < 12)%nat /\ (12 < i + 100)%nat
    /\ in_band (nth i [0; 0; 0; 0; 0; 0; 0; 0; 0; 0; 1; 2] 0) = true
    /\ 10 = nth i [0; 1; 2; 3; 4; 5; 6; 7; 8; 9; 10; 11] 0
    /\ forall j : nat, (i < j < 12)%nat ->
         in_band (nth j [0; 0; 0; 0; 0; 0; 0; 0; 0; 0; 1; 2] 0) = false.
Proof.
  apply (settling_time_found
           [0; 1; 2; 3; 4; 5; 6; 7; 8; 9; 10; 11]
           [0; 0; 0; 0; 0; 0; 0; 0; 0; 0; 1; 2] 10);
    [reflexivity | vm_compute; reflexivity].
Defined.

(** X2. On traces of equal length the scan never raises, and it reports no
    settling time exactly when the trace has at most 10 samples or none of
    its last 99 samples, index 0 excluded, is in band. *)
Theorem settling_time_absent (t y : list Q) :
  length t = length y ->
  (exists r, settling_time t y = Ok r)
  /\ (settling_time t y = Ok None <->
      (length y <= 10)%nat
      \/ forall j : nat, (1 <= j < length y)%nat -> (length y < j + 100)%nat ->
                         in_band (nth j y 0) = false).
Proof.
  intros Hlen.
  destruct (le_lt_dec (length y) 10) as [Hle | Hgt].
  - assert (Hst : settling_time t y = Ok None).
    { unfold settling_time.
      destruct (len y >? 10)%Z eqn:E; [apply length_gt_10 in E; lia |].
      reflexivity. }
    split; [eexists; exact Hst |]. split; [left; exact Hle | intros _; exact Hst].
  - destruct (settling_time_cases t y Hlen Hgt)
      as [(i & Hi1 & Hi2 & Hb & Hafter & Hscan) | (Hall & Hscan)].
    + split; [eexists; exact Hscan |]. rewrite Hscan. split.
      * intros H; discriminate H.
      * intros [Hle | Hall]; [lia |].
        rewrite (Hall i Hi1 Hi2) in Hb. discriminate Hb.
    + split; [eexists; exact Hscan |]. split; [right; exact Hall |].
      intros _. exact Hscan.
Qed.

Lemma settling_time_absent_witness :
  settling_time [0; 1; 2; 3; 4; 5; 6; 7; 8; 9; 10; 11]
                [1; 0; 0; 0; 0; 0; 0; 0; 0; 0; 0; 0] = Ok None.
Proof.
  apply (settling_time_absent
           [0; 1; 2; 3; 4; 5; 6; 7; 8; 9; 10; 11]
           [1; 0; 0; 0; 0; 0; 0; 0; 0; 0; 0; 0] eq_refl).
  right. intros j Hj _.
  do 12 (destruct j as [| j]; [first [reflexivity | simpl in Hj; lia] |]).
  simpl in Hj. lia.
Defined.

Lemma settling_scan_ext (t y y' : list Q) (idx : list Z) :
  (forall i, In i idx -> getitem y i = getitem y' i) ->
  settling_scan t y idx = settling_scan t y' idx.
Proof.
  induction idx as [| i idx IH]; intros H; [reflexivity |].
  simpl. rewrite <- (H i) by (left; reflexivity).
  destruct (getitem y i) as [yi |]; [| reflexivity]. simpl.
  destruct (in_band yi); [reflexivity |].
  apply IH. intros j Hj. apply H. right. exact Hj.
Qed.

(** X3. The result depends on the last 99 samples only: two outputs of the
    same length that agree at every index from [max(1, len - 99)] on have
    the same settling time; sample 0 and anything older never count. *)
Theorem settling_time_window (t y y' : list Q) :
  length y = length y' ->
  (forall i : nat, (1 <= i)%nat -> (length y < i + 100)%nat ->
                   nth_error y i = nth_error y' i) ->
  settling_time t y = settling_time t y'.
Proof.
  intros Hlen Hagree. unfold settling_time, len. rewrite <- Hlen.
  destruct (Z.of_nat (length y) >? 10)%Z; [| reflexivity].
  apply settling_scan_ext. intros i Hi.
  apply range_down_in in Hi.
  unfold getitem.
  destruct (i <? 0)%Z eqn:E; [apply Z.ltb_lt in E; lia |].
  rewrite E. rewrite (Hagree (Z.to_nat i)) by lia. reflexivity.
Qed.

Lemma settling_time_window_witness :
  settling_time [0; 1; 2; 3; 4; 5; 6; 7; 8; 9; 10]
                [1; 0; 0; 0; 0; 0; 0; 0; 0; 0; 0] =
  settling_time [0; 1; 2; 3; 4; 5; 6; 7; 8; 9; 10]
                [5; 0; 0; 0; 0; 0; 0; 0; 0; 0; 0].
Proof.
  apply settling_time_window; [reflexivity |].
  intros i Hi _. destruct i as [| i]; [lia | reflexivity].
Defined.

Lemma settling_time_total (t y : list Q) :
  length t = length y -> exists r, settling_time t y = Ok r.
Proof.
  intros Hlen.
  destruct (le_lt_dec (length y) 10) as [Hle | Hgt].
  - exists None. unfold settling_time.
    destruct (len y >? 10)%Z eqn:E; [apply length_gt_10 in E; lia |].
    reflexivity.
  - destruct (settling_time_cases t y Hlen Hgt)
      as [(i & _ & _ & _ & _ & Hscan) | (_ & Hscan)];
      eexists; exact Hscan.
Qed.

(** ** Further properties of overshoot and maximum effort *)

Lemma Qmax_cases (x y : Q) : Qmax x y = x \/ Qmax x y = y.
Proof.
  unfold Qmax, GenericMinMax.gmax. destruct (x ?= y); auto.
Qed.

Lemma fold_max_in (r : list Q) (x : Q) : In (fold_left Qmax r x) (x :: r).
Proof.
  revert x. induction r as [| y r IH]; intros x; simpl; [auto |].
  destruct (IH (Qmax x y)) as [H | H]; [| auto].
  rewrite <- H. destruct (Qmax_cases x y) as [E | E]; rewrite E; auto.
Qed.

(** X4. The overshoot is computed for every trace, is never negative, and
    is positive exactly when some output sample exceeds the reference 1. *)
Theorem overshoot_sign (y_degrau : list Q) :
  exists o,
    overshoot y_degrau = Ok o
    /\ 0 <= o
    /\ (0 < o <-> exists v, In v y_degrau /\ 1 < v).
Proof.
  destruct y_degrau as [| x ys].
  - exists 0. split; [reflexivity |]. split; [apply Qle_refl |].
    split; [intros H; discriminate H | intros (v & [] & _)].
  - set (m := fold_left Qmax ys x).
    exists (max2 0 ((m - 1) * 100)). split; [reflexivity |].
    destruct (fold_max_upper ys x) as [Hx Hys]. fold m in Hx, Hys.
    pose proof (fold_max_in ys x) as Hin. fold m in Hin.
    unfold max2, gt.
    destruct (Qle_bool ((m - 1) * 100) 0) eqn:E; simpl.
    + apply Qle_bool_iff in E.
      split; [apply Qle_refl |]. split; [intros H; discriminate H |].
      intros (v & Hv & H1). exfalso.
      assert (Hvm : v <= m) by (destruct Hv as [<- | Hv]; auto).
      nra.
    + assert (Hpos : 0 < (m - 1) * 100).
      { destruct (Qlt_le_dec 0 ((m - 1) * 100)) as [H | H]; [exact H |].
        apply Qle_bool_iff in H. congruence. }
      split; [apply Qlt_le_weak; exact Hpos |].
      split; [| intros _; exact Hpos].
      intros _. exists m. split; [exact Hin | nra].
Qed.

(** X5. For a non-empty effort trace the maximum effort is returned, bounds
    every sample in absolute value, and is the absolute value of one of
    them. *)
Theorem esforco_maximo_bound (u : list Q) :
  u <> [] ->
  exists m,
    esforco_maximo u = Ok m
    /\ (forall v, In v u -> - m <= v <= m)
    /\ (exists v, In v u /\ m = Qabs v).
Proof.
  intros Hne. destruct u as [| x us]; [congruence |].
  set (m := fold_left Qmax (map Qabs us) (Qabs x)).
  exists m. split; [reflexivity |].
  destruct (fold_max_upper (map Qabs us) (Qabs x)) as [Hx Hus].
  fold m in Hx, Hus.
  split.
  - intros v Hv.
    assert (Habs : Qabs v <= m).
    { destruct Hv as [<- | Hv]; [exact Hx |].
      apply Hus. apply in_map. exact Hv. }
    apply Qabs_Qle_condition. exact Habs.
  - pose proof (fold_max_in (map Qabs us) (Qabs x)) as Hin. fold m in Hin.
    destruct Hin as [H | H].
    + exists x. split; [left; reflexivity | symmetry; exact H].
    + apply in_map_iff in H. destruct H as (v & Hv & Hin).
      exists v. split; [right; exact Hin | symmetry; exact Hv].
Qed.

Lemma esforco_maximo_bound_witness :
  exists m,
    esforco_maximo [0.5; -3; 2] = Ok m
    /\ (forall v, In v [0.5; -3; 2] -> - m <= v <= m)
    /\ (exists v, In v [0.5; -3; 2] /\ m = Qabs v).
Proof.
  apply (esforco_maximo_bound [0.5; -3; 2]). discriminate.
Defined.

Lemma esforco_maximo_ok (u : list Q) :
  u <> [] -> exists m, esforco_maximo u = Ok m.
Proof.
  destruct u as [| x us]; [congruence |]. intros _. eexists. reflexivity.
Qed.

Lemma overshoot_ok (y : list Q) : exists o, overshoot y = Ok o.
Proof.
  destruct y as [| x ys]; eexists; reflexivity.
Qed.

(** ** The two guarded blocks *)

(** X6. On a non-empty step trace with a time vector of the same length and
    a non-empty effort trace, the step block does not fail: it prints the
    header, the final value, the absolute final error, the maximum effort,
    the settling time when one was found and is not zero, and the
    overshoot, in this order. *)
Theorem step_metrics_lines (t y u : list Q) :
  length t = length y -> y <> [] -> u <> [] ->
  exists st ov em,
    settling_time t y = Ok st
    /\ overshoot y = Ok ov
    /\ esforco_maximo u = Ok em
    /\ IO.printed (step_metrics t y u) =
       [StepHeader; FinalValue (last y 0);
        SteadyStateError (Qabs (1 - last y 0)); MaxEffort em]
       ++ match st with
          | Some v => if Qeq_bool v 0 then [] else [SettlingTime v]
          | None => []
          end
       ++ [Overshoot ov].
Proof.
  intros Hlen Hy Hu.
  destruct (settling_time_total t y Hlen) as [st Hst].
  destruct (overshoot_ok y) as [ov Hov].
  destruct (esforco_maximo_ok u Hu) as [em Hem].
  exists st, ov, em. repeat split; try assumption.
  unfold IO.printed, step_metrics, IO.try_except, step_body, IO.bind,
    IO.lift, IO.print, IO.ret.
  unfold erro_estacionario.
  rewrite Hst, Hov, Hem, (getitem_last y 0 Hy). simpl.
  destruct st as [v |]; simpl; [| reflexivity].
  destruct (Qeq_bool v 0); reflexivity.
Qed.

Lemma step_metrics_lines_witness :
  exists st ov em,
    settling_time [0; 126] [0.5; 1.2] = Ok st
    /\ overshoot [0.5; 1.2] = Ok ov
    /\ esforco_maximo [0.01; -0.02] = Ok em
    /\ IO.printed (step_metrics [0; 126] [0.5; 1.2] [0.01; -0.02]) =
       [StepHeader; FinalValue (last [0.5; 1.2] 0);
        SteadyStateError (Qabs (1 - last [0.5; 1.2] 0)); MaxEffort em]
       ++ match st with
          | Some v => if Qeq_bool v 0 then [] else [SettlingTime v]
          | None => []
          end
       ++ [Overshoot ov].
Proof.
  apply (step_metrics_lines [0; 126] [0.5; 1.2] [0.01; -0.02]);
    [reflexivity | discriminate | discriminate].
Defined.

(** X7. When only the effort trace is empty, the step block keeps the lines
    already printed (header, final value, final error) and ends with the
    failure of the maximum over an empty array; the overshoot and the
    settling time, though computed, are not printed. *)
Theorem step_metrics_partial (t y : list Q) :
  length t = length y -> y <> [] ->
  IO.printed (step_metrics t y []) =
  [StepHeader; FinalValue (last y 0);
   SteadyStateError (Qabs (1 - last y 0)); StepFailure ValueError].
Proof.
  intros Hlen Hy.
  destruct (settling_time_total t y Hlen) as [st Hst].
  destruct (overshoot_ok y) as [ov Hov].
  unfold IO.printed, step_metrics, IO.try_except, step_body, IO.bind,
    IO.lift, IO.print, IO.ret.
  unfold erro_estacionario.
  rewrite Hst, Hov, (getitem_last y 0 Hy). reflexivity.
Qed.

Lemma step_metrics_partial_witness :
  IO.printed (step_metrics [0; 126] [0.5; 1.2] []) =
  [StepHeader; FinalValue (last [0.5; 1.2] 0);
   SteadyStateError (Qabs (1 - last [0.5; 1.2] 0)); StepFailure ValueError].
Proof.
  apply (step_metrics_partial [0; 126] [0.5; 1.2]);
    [reflexivity | discriminate].
Defined.

(** X8. On a non-empty error trace the ramp block prints its header and
    the last error, then the maximum effort, or the failure of the maximum
    when the effort trace is empty. *)
Theorem ramp_metrics_lines (erro u : list Q) :
  erro <> [] ->
  IO.printed (ramp_metrics erro u) =
  [RampHeader; RampFinalError (last erro 0);
   match esforco_maximo u with
   | Ok em => RampMaxEffort em
   | Raise e => RampFailure e
   end]
  /\ (u = [] -> esforco_maximo u = Raise ValueError)
  /\ (u <> [] -> exists em, esforco_maximo u = Ok em).
Proof.
  intros He. split; [| split].
  - unfold IO.printed, ramp_metrics, IO.try_except, ramp_body, IO.bind,
      IO.lift, IO.print, erro_final_rampa.
    rewrite (getitem_last erro 0 He).
    destruct (esforco_maximo u); reflexivity.
  - intros ->. reflexivity.
  - apply esforco_maximo_ok.
Qed.

Lemma ramp_metrics_lines_witness :
  IO.printed (ramp_metrics [0.5; 0.25] [1; -2]) =
  [RampHeader; RampFinalError 0.25; RampMaxEffort 2].
Proof.
  destruct (ramp_metrics_lines [0.5; 0.25] [1; -2]) as [H _];
    [discriminate |].
  rewrite H. reflexivity.
Defined.

Lemma step_metrics_log (t y u : list Q) (out : list line) :
  step_metrics t y u out =
  (out ++ IO.printed (step_metrics t y u), Ok tt).
Proof.
  unfold IO.printed, step_metrics, IO.try_except, step_body, IO.bind,
    IO.lift, IO.print, IO.ret.
  destruct (settling_time t y) as [st |]; simpl; [| reflexivity].
  destruct (overshoot y); simpl; [| reflexivity].
  destruct (getitem y (-1)); simpl;
    [| rewrite <- !app_assoc; reflexivity].
  destruct (erro_estacionario y); simpl;
    [| rewrite <- !app_assoc; reflexivity].
  destruct (esforco_maximo u); simpl;
    [| rewrite <- !app_assoc; reflexivity].
  destruct (truthy st); [destruct st |]; simpl;
    rewrite <- !app_assoc; reflexivity.
Qed.

Lemma ramp_metrics_log (erro u : list Q) (out : list line) :
  ramp_metrics erro u out =
  (out ++ IO.printed (ramp_metrics erro u), Ok tt).
Proof.
  unfold IO.printed, ramp_metrics, IO.try_except, ramp_body, IO.bind,
    IO.lift, IO.print.
  destruct (erro_final_rampa erro); simpl; [| reflexivity].
  destruct (esforco_maximo u); simpl; rewrite <- !app_assoc; reflexivity.
Qed.

(** X9. The metrics section never lets an exception out, and a failure in
    the step block does not stop the ramp block: what is printed is what
    the step block prints followed by what the ramp block prints. *)
Theorem metrics_report_never_raises (t y u erro ur : list Q) :
  IO.outcome (metrics_report t y u erro ur) = Ok tt
  /\ IO.printed (metrics_report t y u erro ur) =
     IO.printed (step_metrics t y u) ++ IO.printed (ramp_metrics erro ur).
Proof.
  unfold IO.outcome, metrics_report.
  unfold IO.printed at 1. unfold IO.bind.
  rewrite step_metrics_log, ramp_metrics_log. simpl. split; reflexivity.
Qed.

(** ** Further properties of the PID controller *)

(** X10. For a positive sample period the controller is the sum the
    comments of Bloco 7 announce: as polynomials in [z], its numerator is
    [Kp z(z-1) + Ki (T/2) z(z+1) + (Kd/T) (z-1)^2] and its denominator
    [z(z-1)], so that away from [z = 0] and [z = 1] its transfer function is
    [Kp + Ki (T/2) (z+1)/(z-1) + (Kd/T) (z-1)/z]: a proportional term, a
    trapezoidal integral and a backward-difference derivative. *)
Theorem pid_transfer_function (Kp Ki Kd T z : Q) :
  0 < T ->
  exists C,
    Cz Kp Ki Kd T = Ok C
    /\ peval (num C) z ==
       Kp * (z * (z - 1)) + Ki * (T / 2) * (z * (z + 1))
       + Kd / T * ((z - 1) * (z - 1))
    /\ peval (den C) z == z * (z - 1)
    /\ (~ z == 0 -> ~ z == 1 ->
        peval (num C) z / peval (den C) z ==
        Kp + Ki * (T / 2) * ((z + 1) / (z - 1)) + Kd / T * ((z - 1) / z)).
Proof.
  intros HT.
  assert (HT0 : ~ T == 0) by lra.
  eexists. split; [apply Cz_positive; exact HT |].
  cbn [num den]. unfold peval, horner. cbn [fold_left].
  split; [field; exact HT0 |]. split; [ring |].
  intros Hz0 Hz1.
  assert (Hz1' : ~ z - 1 == 0) by (intro H; apply Hz1; lra).
  field. repeat split; assumption.
Qed.

Lemma pid_transfer_function_witness :
  0 < 126 /\
  exists C,
    Cz 0.01 0.000005 0.002 126 = Ok C
    /\ peval (den C) 1 == 1 * (1 - 1).
Proof.
  split; [reflexivity |].
  destruct (pid_transfer_function 0.01 0.000005 0.002 126 1)
    as (C & HC & _ & Hden & _); [reflexivity |].
  exists C. split; [exact HC | exact Hden].
Defined.

Lemma sys_cl_ok (C G : TransferFunction) :
  dt C == dt G ->
  sys_cl C G =
  Ok (tf (polymul (polymul (num C) (num G)) [1])
         (polyadd (polymul (polymul (den C) (den G)) [1])
                  (polymul (polymul (num C) (num G)) [1]))
         (dt C)).
Proof.
  intros Hdt. unfold sys_cl, tf_mul.
  apply Qeq_bool_iff in Hdt. rewrite Hdt. simpl bind.
  unfold feedback, tf_const. cbn [dt num den].
  assert (Hrefl : Qeq_bool (dt C) (dt C) = true)
    by (apply Qeq_bool_iff; reflexivity).
  rewrite Hrefl. reflexivity.
Qed.

Lemma peval_one (z : Q) : peval [1] z == 1.
Proof. unfold peval, horner. simpl. ring. Qed.

(** X11. For a positive sample period and a plant built at that period
    whose numerator does not vanish at [z = 1], with a non-zero integral
    gain:
    the controller denominator vanishes at [z = 1] (the integrator of line
    83), the closed loop has numerator and denominator equal and non-zero
    there, both [Ki T] times the plant numerator, and so a DC gain of
    exactly [1]. *)
Theorem closed_loop_dc (Kp Ki Kd T : Q) (G : TransferFunction) :
  0 < T -> Control.tf (num G) (den G) (dt G) = Ok G -> dt G == T ->
  ~ Ki == 0 -> ~ peval (num G) 1 == 0 ->
  exists C cl,
    Cz Kp Ki Kd T = Ok C
    /\ sys_cl C G = Ok cl
    /\ peval (den C) 1 == 0
    /\ peval (num cl) 1 == Ki * T * peval (num G) 1
    /\ peval (den cl) 1 == peval (num cl) 1
    /\ ~ peval (den cl) 1 == 0
    /\ peval (num cl) 1 / peval (den cl) 1 == 1.
Proof.
  intros HT _ HG HKi HnG.
  assert (HT0 : ~ T == 0) by lra.
  eexists. eexists.
  split; [apply Cz_positive; exact HT |].
  split; [apply sys_cl_ok; cbn [dt]; symmetry; exact HG |].
  cbn [num den].
  assert (Hn : peval [Kp + Ki * T / 2 + Kd / T;
                      - Kp + Ki * T / 2 - 2 * Kd / T; Kd / T] 1 == Ki * T).
  { unfold peval, horner. cbn [fold_left]. field. exact HT0. }
  assert (Hd : peval [1; -1; 0] 1 == 0) by reflexivity.
  split; [exact Hd |].
  rewrite peval_polyadd, !peval_polymul, peval_one, Hn, Hd.
  assert (Hnz : ~ Ki * T * peval (num G) 1 == 0).
  { intro H. apply Qmult_integral in H. destruct H as [H | H]; [| tauto].
    apply Qmult_integral in H. tauto. }
  split; [ring |]. split; [ring |].
  split; [intro H; apply Hnz; rewrite <- H; ring |].
  field. repeat split; assumption.
Qed.

Lemma closed_loop_dc_witness :
  0 < 126 /\
  exists C cl,
    Cz 0.01 0.000005 0.002 126 = Ok C
    /\ sys_cl C (tf [0; 0.5] [1; -0.5] 126) = Ok cl
    /\ peval (num cl) 1 / peval (den cl) 1 == 1.
Proof.
  split; [reflexivity |].
  destruct (closed_loop_dc 0.01 0.000005 0.002 126
                           (tf [0; 0.5] [1; -0.5] 126))
    as (C & cl & HC & Hcl & _ & _ & _ & _ & H);
    [reflexivity | reflexivity | reflexivity | intro H; discriminate H
    | intro H; discriminate H |].
  exists C, cl. repeat split; assumption.
Defined.

Lemma forced_response_ok (sys : TransferFunction) (t u : list Q) :
  Sim.grid_ok (dt sys) t = true -> length t = length u ->
  forced_response sys t u =
  Ok (t, Sim.difference_equation (num sys) (den sys) u).
Proof.
  intros Hg Hl. unfold forced_response, simulate.
  rewrite Hg, Hl, Nat.eqb_refl. reflexivity.
Qed.

(** X12. For a positive sample period, driven by an error sequence [e] on
    a matching time grid of two or more samples, the controller output
    obeys the incremental PID law
    [u[n] - u[n-1] = Kp (e[n] - e[n-1]) + Ki (T/2) (e[n] + e[n-1])
                     + (Kd/T) (e[n] - 2 e[n-1] + e[n-2])],
    samples before the origin being zero. *)
Theorem pid_recurrence (Kp Ki Kd T : Q) (t e : list Q) :
  0 < T -> (2 <= length t)%nat ->
  Sim.grid_ok T t = true -> length t = length e ->
  exists C u,
    Cz Kp Ki Kd T = Ok C
    /\ forced_response C t e = Ok (t, u)
    /\ length u = length e
    /\ forall n : nat, (n < length e)%nat ->
         nth n u 0 - Sim.sample u (Z.of_nat n - 1) ==
         Kp * (nth n e 0 - Sim.sample e (Z.of_nat n - 1))
         + Ki * (T / 2) * (nth n e 0 + Sim.sample e (Z.of_nat n - 1))
         + Kd / T * (nth n e 0 - 2 * Sim.sample e (Z.of_nat n - 1)
                     + Sim.sample e (Z.of_nat n - 2)).
Proof.
  intros HT _ Hg Hl.
  assert (HT0 : ~ T == 0) by lra.
  eexists. eexists.
  split; [apply Cz_positive; exact HT |].
  split; [apply forced_response_ok; assumption |].
  cbn [num den]. split; [apply length_run |].
  intros n Hn.
  rewrite (difference_equation_holds _ _ e n Hn) at 1.
  unfold Sim.rhs.
  cbn [length seq map Sim.sumQ fold_right nth hd Nat.sub].
  change (Z.of_nat 0) with 0%Z. change (Z.of_nat 1) with 1%Z.
  change (Z.of_nat 2) with 2%Z.
  rewrite Z.sub_0_r, sample_nonneg.
  generalize (Sim.sample
                (Sim.difference_equation
                   [Kp + Ki * T / 2 + Kd / T;
                    - Kp + Ki * T / 2 - 2 * Kd / T; Kd / T] [1; -1; 0] e)).
  intros su.
  generalize (Sim.sample e (Z.of_nat n - 1)), (Sim.sample e (Z.of_nat n - 2)),
    (nth n e 0), (su (Z.of_nat n - 1)%Z), (su (Z.of_nat n - 2)%Z).
  intros e1 e2 e0 u1 u2. field. exact HT0.
Qed.

Lemma pid_recurrence_witness :
  0 < 1 /\ (2 <= length [0; 1; 2])%nat /\
  exists C u,
    Cz 1 0 0 1 = Ok C
    /\ forced_response C [0; 1; 2] [1; 1; 1] = Ok ([0; 1; 2], u)
    /\ length u = 3%nat.
Proof.
  split; [reflexivity |]. split; [simpl; lia |].
  destruct (pid_recurrence 1 0 0 1 [0; 1; 2] [1; 1; 1])
    as (C & u & HC & Hu & Hlen & _);
    [reflexivity | simpl; lia | reflexivity | reflexivity |].
  exists C, u. repeat split; assumption.
Defined.

(** ** The time vector *)

Lemma arange_nonzero (start stop step : Q) :
  ~ step == 0 ->
  arange start stop step =
  Ok (map (fun i => start + inject_Z (Z.of_nat i) * step)
          (seq 0 (Z.to_nat (Qceiling ((stop - start) / step))))).
Proof.
  intros H. unfold arange.
  destruct (Qeq_bool step 0) eqn:E; [| reflexivity].
  apply Qeq_bool_iff in E. contradiction.
Qed.




Lemma nth_map_seq (f : nat -> Q) (n i : nat) :
  (i < n)%nat -> nth i (map f (seq 0 n)) 0 = f i.
Proof.
  intros Hi.
  rewrite (nth_indep _ 0 (f 0%nat))
    by (rewrite length_map, length_seq; exact Hi).
  rewrite map_nth, seq_nth by exact Hi. reflexivity.
Qed.

Lemma nth_affine (start T : Q) (n i : nat) :
  (i < n)%nat ->
  nth i (map (fun i => start + inject_Z (Z.of_nat i) * T) (seq 0 n)) 0 =
  start + inject_Z (Z.of_nat i) * T.
Proof.
  intros Hi.
  exact (nth_map_seq (fun i => start + inject_Z (Z.of_nat i) * T) n i Hi).
Qed.




Lemma step_metrics_printed (t y u : list Q) (st : option Q) (ov em : Q) :
  y <> [] ->
  settling_time t y = Ok st -> overshoot y = Ok ov ->
  esforco_maximo u = Ok em ->
  IO.printed (step_metrics t y u) =
  [StepHeader; FinalValue (last y 0);
   SteadyStateError (Qabs (1 - last y 0)); MaxEffort em]
  ++ match st with
     | Some v => if Qeq_bool v 0 then [] else [SettlingTime v]
     | None => []
     end
  ++ [Overshoot ov].
Proof.
  intros Hy Hst Hov Hem.
  unfold IO.printed, step_metrics, IO.try_except, step_body, IO.bind,
    IO.lift, IO.print, IO.ret.
  unfold erro_estacionario.
  rewrite Hst, Hov, Hem, (getitem_last y 0 Hy). simpl.
  destruct st as [v |]; simpl; [| reflexivity].
  destruct (Qeq_bool v 0); reflexivity.
Qed.

Lemma settling_time_positive (t_sim T : Q) (t y : list Q) (v : Q) :
  0 < T -> arange 0 t_sim T = Ok t -> length y = length t ->
  settling_time t y = Ok (Some v) -> 0 < v.
Proof.
  intros HT Ht Hlen Hst.
  assert (HT0 : ~ T == 0) by lra.
  rewrite (arange_nonzero 0 t_sim T HT0) in Ht. injection Ht as Ht.
  destruct (le_lt_dec (length y) 10) as [Hle | Hgt].
  { unfold settling_time in Hst.
    destruct (len y >? 10)%Z eqn:E; [apply length_gt_10 in E; lia |].
    discriminate Hst. }
  destruct (settling_time_cases t y (eq_sym Hlen) Hgt)
    as [(i & Hi1 & _ & _ & _ & Hscan) | (_ & Hscan)];
    rewrite Hscan in Hst; [| discriminate Hst].
  injection Hst as <-.
  assert (Hi : (i < Z.to_nat (Qceiling ((t_sim - 0) / T)))%nat).
  { rewrite <- Ht, length_map, length_seq in Hlen. lia. }
  rewrite <- Ht, nth_affine by exact Hi.
  assert (H1 : 1 <= inject_Z (Z.of_nat i)).
  { change 1 with (inject_Z 1). rewrite <- Zle_Qle. lia. }
  nra.
Qed.

(** X14. On the time vector the script builds for a positive sample
    period, a settling time that was found is positive, so the truthiness
    test of line 228 lets it through and its line is printed. *)
Theorem settling_time_printed (t_sim T : Q) (t y u : list Q) (v : Q) :
  0 < T -> arange 0 t_sim T = Ok t -> length y = length t -> u <> [] ->
  settling_time t y = Ok (Some v) ->
  0 < v
  /\ truthy (Some v) = true
  /\ In (SettlingTime v) (IO.printed (step_metrics t y u)).
Proof.
  intros HT Ht Hlen Hu Hst.
  pose proof (settling_time_positive t_sim T t y v HT Ht Hlen Hst) as Hv.
  assert (Hq : Qeq_bool v 0 = false).
  { destruct (Qeq_bool v 0) eqn:E; [| reflexivity].
    apply Qeq_bool_iff in E. lra. }
  split; [exact Hv |]. split; [simpl; rewrite Hq; reflexivity |].
  assert (Hy : y <> []).
  { intros ->. unfold settling_time in Hst. simpl in Hst. discriminate Hst. }
  destruct (overshoot_ok y) as [ov Hov].
  destruct (esforco_maximo_ok u Hu) as [em Hem].
  rewrite (step_metrics_printed t y u (Some v) ov em Hy Hst Hov Hem).
  rewrite Hq. simpl. tauto.
Qed.

Lemma settling_time_printed_witness :
  0 < 1 /\
  In (SettlingTime 10)
     (IO.printed (step_metrics [0; 1; 2; 3; 4; 5; 6; 7; 8; 9; 10]
                               [0; 0; 0; 0; 0; 0; 0; 0; 0; 0; 1] [1])).
Proof.
  split; [reflexivity |].
  apply (settling_time_printed 11 1 [0; 1; 2; 3; 4; 5; 6; 7; 8; 9; 10]
           [0; 0; 0; 0; 0; 0; 0; 0; 0; 0; 1] [1] 10);
    [reflexivity | vm_compute; reflexivity | reflexivity | discriminate
    | vm_compute; reflexivity].
Defined.

Lemma settling_time_is_last_instant_witness :
  (10 < length [0; 0; 0; 0; 0; 0; 0; 0; 0; 0; 1])%nat /\
  settling_time [0; 126; 252; 378; 504; 630; 756; 882; 1008; 1134; 1260]
                [0; 0; 0; 0; 0; 0; 0; 0; 0; 0; 1] = Ok (Some 1260).
Proof.
  split; [simpl; lia |].
  apply (settling_time_is_last_instant
           [0; 126; 252; 378; 504; 630; 756; 882; 1008; 1134; 1260]
           [0; 0; 0; 0; 0; 0; 0; 0; 0; 0; 1]);
    [simpl; lia | reflexivity | reflexivity].
Defined.
